(** * Function.prototype extensions (src/lang/function.js)

    A shallow embedding of the eight methods that [function.js] mixes
    into [Function.prototype], together with the small part of the host
    they rely on: function objects living in a store, the receiver
    ([this]) a call is made with, the ambient [window.event], and the
    timer queue behind [window.setTimeout] / [window.clearTimeout].

    The file is non-strict script code, so inside every function literal
    of the module [this] is the receiver after the host's defaulting:
    an absent receiver ([undefined] or [null]) becomes the global object
    and a primitive receiver is wrapped. *)

From Stdlib Require Import QArith Ascii.
From stdpp Require Import base list strings gmap.

Set Default Proof Using "Type".
Open Scope nat_scope.

(** ** Values *)

Abbreviation loc := nat.

(** Primitive values other than [undefined] and [null].  Numbers are
    exact rationals: the module only ever writes the literal [0.01] and
    hands products to the scheduler, which are kept symbolic (see
    [millis]). *)
Inductive prim :=
| PBool (b : bool)
| PNum (q : Q)
| PStr (s : string).

Inductive value :=
| VUndef
| VNull
| VPrim (p : prim)
| VObj (o : nat)          (* a host object, known by its identity *)
| VWrapper (p : prim)     (* Boolean / Number / String wrapper object *)
| VFun (l : loc).         (* a callable, by reference *)

Abbreviation VBool b := (VPrim (PBool b)).
Abbreviation VNum q := (VPrim (PNum q)).
Abbreviation VStr s := (VPrim (PStr s)).

(** The global object. *)
Definition window : value := VObj 0.

(** ToBoolean. *)
Definition truthy (v : value) : bool :=
  match v with
  | VUndef | VNull => false
  | VBool b => b
  | VNum q => negb (Qeq_bool q 0)
  | VStr s => negb (String.eqb s "")
  | VObj _ | VWrapper _ | VFun _ => true
  end.

(** [a || b] *)
Definition js_or (a b : value) : value := if truthy a then a else b.

(** [Object.isUndefined] *)
Definition isUndefined (v : value) : bool :=
  match v with VUndef => true | _ => false end.

(** The value of [this] inside a non-strict function called with
    receiver [t]. *)
Definition this_of (t : value) : value :=
  match t with
  | VUndef | VNull => window
  | VPrim p => VWrapper p
  | _ => t
  end.

Definition is_object (v : value) : Prop :=
  match v with VObj _ | VWrapper _ | VFun _ => True | _ => False end.

(** ** Arrays and argument lists

    An array (or [arguments] object) is the list of its elements.
    Writing past the end extends the array, the skipped positions
    reading as [undefined]. *)

Definition array_get (a : list value) (i : nat) : value := nth i a VUndef.

Definition array_set (a : list value) (i : nat) (v : value) : list value :=
  if decide (i < length a) then <[i:=v]> a
  else a ++ replicate (i - length a) VUndef ++ [v].

(** [slice.call(array, k)] *)
Definition slice (array : list value) (k : nat) : list value := drop k array.

(** The [while (length--)] loop of [update]: [length] is the counter
    before the test. *)
Fixpoint update_loop (length : nat) (array : list value) (arrayLength : nat)
    (args : list value) : list value :=
  match length with
  | 0 => array
  | S length' =>
      update_loop length'
        (array_set array (arrayLength + length') (array_get args length'))
        arrayLength args
  end.

Definition update (array args : list value) : list value :=
  update_loop (length args) array (length array) args.

Definition merge (array args : list value) : list value :=
  update (slice array 0) args.

(** ** Declaration text and [argumentNames]

    Text is a sequence of 8-bit code units. *)

Abbreviation text := (list ascii).

(** The whitespace class. *)
Definition is_space (c : ascii) : bool :=
  let n := nat_of_ascii c in
  ((9 <=? n) && (n <=? 13)) || (n =? 32) || (n =? 160).

(** Carriage return and line feed; the dot is every other character. *)
Definition is_eol (c : ascii) : bool :=
  let n := nat_of_ascii c in (n =? 10) || (n =? 13).

Definition is_char (d c : ascii) : bool := bool_decide (c = d).

(** A greedy run of characters of a class. *)
Fixpoint skip_while (p : ascii → bool) (s : text) : text :=
  match s with
  | c :: r => if p c then skip_while p r else s
  | [] => []
  end.

Fixpoint take_while (p : ascii → bool) (s : text) : text :=
  match s with
  | c :: r => if p c then c :: take_while p r else []
  | [] => []
  end.

(** A literal: the rest of [s] after [lit], if [s] starts with it. *)
Fixpoint skip_literal (lit s : text) : option text :=
  match lit, s with
  | [], _ => Some s
  | l :: lit', c :: r => if decide (c = l) then skip_literal lit' r else None
  | _ :: _, [] => None
  end.

(** Line 29, [toString().match(...)[1]].  The pattern reads: start of
    text; a run of whitespace and opening parentheses; the word
    [function]; a run of characters other than an opening parenthesis;
    an opening parenthesis; the group, a run of characters other than a
    closing parenthesis; a closing parenthesis.  [None] when the text
    does not match (the source then fails with a TypeError).  Each run
    is followed by a character outside its class, so the greedy match is
    the only one. *)
Definition match_declaration (s : text) : option text :=
  let s := skip_while (λ c, is_space c || is_char "(" c) s in
  match skip_literal (String.list_ascii_of_string "function") s with
  | None => None
  | Some s =>
      match skip_while (λ c, negb (is_char "(" c)) s with
      | c :: s =>
          (* [c] is the opening parenthesis *)
          let group := take_while (λ c, negb (is_char ")" c)) s in
          match skip_while (λ c, negb (is_char ")" c)) s with
          | _ :: _ => Some group
          | [] => None
          end
      | [] => None
      end
  end.

Definition has_eol (s : text) : bool := existsb is_eol s.

(** Does [s] contain a star followed by a slash? *)
Fixpoint has_close (s : text) : bool :=
  match s with
  | c :: r =>
      match r with
      | d :: _ => (is_char "*" c && is_char "/" d) || has_close r
      | [] => false
      end
  | [] => false
  end.

(** Where the scan of the first [replace] of line 30 stands: in ordinary
    text, on the second character of an opener, inside a comment, or on
    the second character of a block terminator. *)
Inductive scan := Code | LineOpen | Line | BlockOpen | Block | BlockClose.

(** The global replace, left to right.  At two slashes a line comment
    is removed when an end of line follows somewhere (the lazy body
    stops at the first one); at slash-star a block comment is removed
    when a star-slash follows the opener (the lazy body stops at the
    first one); every other character is kept. *)
Fixpoint strip_comments_from (m : scan) (s : text) : text :=
  match s with
  | [] => []
  | c :: r =>
      match m with
      | Code =>
          if is_char "/" c then
            match r with
            | d :: r' =>
                if is_char "/" d && has_eol r' then strip_comments_from LineOpen r
                else if is_char "*" d && has_close r' then strip_comments_from BlockOpen r
                else c :: strip_comments_from Code r
            | [] => [c]
            end
          else c :: strip_comments_from Code r
      | LineOpen => strip_comments_from Line r
      | Line =>
          if is_eol c then strip_comments_from Code r
          else strip_comments_from Line r
      | BlockOpen => strip_comments_from Block r
      | Block =>
          match r with
          | d :: _ =>
              if is_char "*" c && is_char "/" d then strip_comments_from BlockClose r
              else strip_comments_from Block r
          | [] => []
          end
      | BlockClose => strip_comments_from Code r
      end
  end.

Definition strip_comments (s : text) : text := strip_comments_from Code s.

(** The second [replace] of line 31: all whitespace goes. *)
Definition strip_spaces (s : text) : text := filter (λ c, is_space c = false) s.

(** [split(',')] *)
Fixpoint split_commas (s : text) : list text :=
  match s with
  | [] => [[]]
  | c :: r =>
      if is_char "," c then [] :: split_commas r
      else match split_commas r with
           | x :: xs => (c :: x) :: xs
           | [] => [[c]]
           end
  end.

(** Lines 29-32, on the declaration text. *)
Definition argument_names (source : text) : option (list text) :=
  match match_declaration source with
  | None => None
  | Some group =>
      let names := split_commas (strip_spaces (strip_comments group)) in
      Some (if (length names =? 1) && bool_decide (nth 0 names [] = [])
            then [] else names)
  end.

(** ** Function objects, the store and the host state *)

(** What a user-written callable does when called: it may call other
    values (any number of times, depending on what they return), return
    or throw. *)
Inductive prog :=
| Ret (v : value)
| Throw (v : value)
| Call (callee receiver : value) (args : list value) (k : value → prog).

(** The code of a function object: either a callable supplied by the
    user, or one of the function literals of [function.js] together with
    the variables it closes over. *)
Inductive code :=
| Native (strict : bool) (source : string) (body : value → list value → prog)
| BindArgs (__method : loc) (context : value) (args : list value)   (* line 46 *)
| BindNoArgs (__method : loc) (context : value)                     (* line 50 *)
| ListenerArgs (__method : loc) (context : value) (args : list value) (* line 68 *)
| ListenerNoArgs (__method : loc) (context : value)                 (* line 73 *)
| Curried (__method : loc) (args : list value)                      (* line 90 *)
| DelayedArgs (__method : loc) (args : list value)                  (* line 112 *)
| DelayedNoArgs (__method : loc)                                    (* line 113 *)
| Wrapped (__method : loc) (wrapper : value)                        (* line 147 *)
| Methodized (__method : loc).                                      (* line 164 *)

(** A function object: its code and its own properties. *)
Record fnobj := FnObj {
  fn_code : code;
  fn_props : gmap string value
}.

(** One entry of the call log: which callable was entered, with which
    receiver and which arguments. *)
Inductive event := Called (f : loc) (receiver : value) (args : list value).

Definition event_callee (e : event) : loc := match e with Called f _ _ => f end.

(** The delay handed to [window.setTimeout]: the product
    [timeout * 1000], kept symbolic. *)
Inductive millis := Times1000 (timeout : value).

Record timer := Timer {
  timer_id : nat;
  timer_fn : value;
  timer_ms : millis
}.

Record state := State {
  heap : list fnobj;          (* function objects, in allocation order *)
  calls : list event;         (* call log, oldest first *)
  window_event : value;       (* window.event *)
  timers : list timer;        (* pending timeouts *)
  next_timer : nat            (* next timeout ID *)
}.

Definition set_heap (st : state) (h : list fnobj) : state :=
  State h (calls st) (window_event st) (timers st) (next_timer st).

Definition set_timers (st : state) (ts : list timer) : state :=
  State (heap st) (calls st) (window_event st) ts (next_timer st).

Definition log_call (st : state) (f : loc) (t : value) (a : list value) : state :=
  State (heap st) (calls st ++ [Called f t a]) (window_event st)
        (timers st) (next_timer st).

(** Evaluating a function literal creates a fresh function object. *)
Definition alloc (st : state) (c : code) : state * value :=
  (set_heap st (heap st ++ [FnObj c ∅]), VFun (length (heap st))).

Definition get_prop (st : state) (f : loc) (name : string) : value :=
  match heap st !! f with
  | Some obj => default VUndef (fn_props obj !! name)
  | None => VUndef
  end.

Definition set_prop (st : state) (f : loc) (name : string) (v : value) : state :=
  match heap st !! f with
  | Some obj =>
      set_heap st (<[f := FnObj (fn_code obj) (<[name := v]> (fn_props obj))]> (heap st))
  | None => st
  end.

(** [arguments.length ? ... : ...] *)
Definition has_length (arguments : list value) : bool :=
  negb (Nat.eqb (length arguments) 0).

(** ** The host scheduler *)

(** Modelled from the spec: the external scheduler, [scheduleAfter(delay,
    thunk) -> token] and [cancel(token)], which the source reaches as
    [window.setTimeout] and [window.clearTimeout].  Tokens are the
    integer IDs the source's documentation speaks of. *)
Definition token (id : nat) : value := VNum (inject_Z (Z.of_nat id)).

Definition setTimeout (st : state) (fn : value) (ms : millis) : state * value :=
  (State (heap st) (calls st) (window_event st)
         (timers st ++ [Timer (next_timer st) fn ms]) (S (next_timer st)),
   token (next_timer st)).

Definition timer_has_token (tok : value) (tm : timer) : bool :=
  match tok with
  | VNum q => Qeq_bool q (inject_Z (Z.of_nat (timer_id tm)))
  | _ => false
  end.

Definition clearTimeout (st : state) (tok : value) : state :=
  set_timers st (filter (λ tm, timer_has_token tok tm = false) (timers st)).

(** ** [bind] *)

Definition bind (st : state) (this : loc) (arguments : list value) : state * value :=
  let context := array_get arguments 0 in
  if (length arguments <? 2) && isUndefined (array_get arguments 0)
  then (st, VFun this)
  else
    let __method := this in
    let args := slice arguments 1 in
    if has_length args
    then alloc st (BindArgs __method context args)
    else alloc st (BindNoArgs __method context).

(** ** Calling *)

Inductive exn := TypeError | UserError (v : value).

Inductive outcome :=
| Returned (v : value)
| Thrown (e : exn)
| OutOfFuel.

Definition result := (outcome * state)%type.

(** Running the body of a user-written callable; [call] performs the
    calls it makes. *)
Fixpoint run_prog (call : state → value → value → list value → result)
    (st : state) (p : prog) : result :=
  match p with
  | Ret v => (Returned v, st)
  | Throw v => (Thrown (UserError v), st)
  | Call g t a k =>
      match call st g t a with
      | (Returned v, st') => run_prog call st' (k v)
      | r => r
      end
  end.

(** [f.apply(t, arguments)] / [f.call(t, ...arguments)] / [f(...)]:
    calling something that is not a function is a TypeError; a function
    object is entered (and logged) and its code run.  [fuel] bounds the
    depth of nested calls.

    [apply], [call], [bind] and [delay] are taken to be the methods
    every function has and nothing else has: the host objects of the
    model are known by their identity alone and carry no properties, so
    the case of an object that is not a function but brings an [apply]
    or [call] of its own is not modelled, and nothing below is stated
    about a wrapper that is an object. *)
Fixpoint invoke (fuel : nat) (st : state) (f : value) (t : value)
    (arguments : list value) : result :=
  match fuel with
  | 0 => (OutOfFuel, st)
  | S fuel =>
      match f with
      | VFun l =>
          match heap st !! l with
          | None => (Thrown TypeError, st)
          | Some obj =>
              let st := log_call st l t arguments in
              let this := this_of t in
              match fn_code obj with
              | Native strict _ body =>
                  run_prog (invoke fuel) st
                    (body (if strict then t else this) arguments)
              | BindArgs __method context args =>
                  invoke fuel st (VFun __method) context
                    (if has_length arguments then merge args arguments else args)
              | BindNoArgs __method context =>
                  if has_length arguments
                  then invoke fuel st (VFun __method) context arguments
                  else invoke fuel st (VFun __method) context []
              | ListenerArgs __method context args =>
                  let event := array_get arguments 0 in
                  let a := update [js_or event (window_event st)] args in
                  invoke fuel st (VFun __method) context a
              | ListenerNoArgs __method context =>
                  let event := array_get arguments 0 in
                  invoke fuel st (VFun __method) context
                    [js_or event (window_event st)]
              | Curried __method args =>
                  invoke fuel st (VFun __method) this
                    (if has_length arguments then merge args arguments else args)
              | DelayedArgs __method args =>
                  invoke fuel st (VFun __method) (VFun __method) args
              | DelayedNoArgs __method =>
                  invoke fuel st (VFun __method) (VFun __method) []
              | Wrapped __method wrapper =>
                  match wrapper with
                  | VUndef | VNull => (Thrown TypeError, st)
                  | _ =>
                      let '(st1, bound) := bind st __method [this] in
                      if has_length arguments
                      then invoke fuel st1 wrapper this (update [bound] arguments)
                      else invoke fuel st1 wrapper this [bound]
                  end
              | Methodized __method =>
                  if has_length arguments
                  then invoke fuel st (VFun __method) VNull (update [this] arguments)
                  else invoke fuel st (VFun __method) VUndef [this]
              end
          end
      | _ => (Thrown TypeError, st)
      end
  end.

(** The scheduler dispatching the timeout [id]: a pending timeout is
    removed from the queue and its function called, with no receiver and
    whatever arguments [late] the host passes; anything else does
    nothing. *)
Definition dispatch (fuel : nat) (st : state) (id : nat) (late : list value) : result :=
  match find (λ tm, Nat.eqb (timer_id tm) id) (timers st) with
  | None => (Returned VUndef, st)
  | Some tm =>
      invoke fuel
        (set_timers st (filter (λ tm, Nat.eqb (timer_id tm) id = false) (timers st)))
        (timer_fn tm) VUndef late
  end.

(** ** The other methods *)

Definition bindAsEventListener (st : state) (this : loc)
    (arguments : list value) : state * value :=
  let context := array_get arguments 0 in
  let __method := this in
  let args := slice arguments 1 in
  if has_length args
  then alloc st (ListenerArgs __method context args)
  else alloc st (ListenerNoArgs __method context).

Definition curry (st : state) (this : loc) (arguments : list value) : state * value :=
  if negb (has_length arguments) then (st, VFun this)
  else
    let __method := this in
    let args := slice arguments 0 in
    alloc st (Curried __method args).

Definition delay (st : state) (this : loc) (arguments : list value) : state * value :=
  let timeout := array_get arguments 0 in
  let __method := this in
  let args := slice arguments 1 in
  let timeout := Times1000 timeout in
  let '(st1, fn) :=
    if has_length args
    then alloc st (DelayedArgs __method args)
    else alloc st (DelayedNoArgs __method) in
  setTimeout st1 fn timeout.

Definition defer (st : state) (this : loc) (arguments : list value) : state * value :=
  if has_length arguments
  then delay st this (update [VNum (1 # 100)] arguments)
  else delay st this [VNum (1 # 100)].

Definition wrap (st : state) (this : loc) (wrapper : value) : state * value :=
  let __method := this in
  alloc st (Wrapped __method wrapper).

Definition methodize (st : state) (this : loc) : state * value :=
  if truthy (get_prop st this "_methodized")
  then (st, get_prop st this "_methodized")
  else
    let __method := this in
    let '(st1, m) := alloc st (Methodized __method) in
    (set_prop st1 this "_methodized" m, m).

(** [this.toString()]: the text of a user-written callable is its own;
    the module's function literals read as they are written in the
    source, on one line (only their head, up to the parameter list,
    matters to [argumentNames]). *)
Definition toString (c : code) : string :=
  match c with
  | Native _ source _ => source
  | BindArgs _ _ _ =>
      "function() { return __method.apply(context, arguments.length ? merge(args, arguments) : args); }"
  | BindNoArgs _ _ =>
      "function() { return arguments.length ? __method.apply(context, arguments) : __method.call(context); }"
  | ListenerArgs _ _ _ =>
      "function(event) { var a = update([event || window.event], args); return __method.apply(context, a); }"
  | ListenerNoArgs _ _ =>
      "function(event) { return __method.call(context, event || window.event); }"
  | Curried _ _ =>
      "function() { return __method.apply(this, arguments.length ? merge(args, arguments) : args) }"
  | DelayedArgs _ _ => "function() { return __method.apply(__method, args); }"
  | DelayedNoArgs _ => "function() { return __method.call(__method); }"
  | Wrapped _ _ =>
      "function() { return arguments.length ? wrapper.apply(this, update([__method.bind(this)], arguments)) : wrapper.call(this, __method.bind(this)); }"
  | Methodized _ =>
      "function() { return arguments.length ? __method.apply(null, update([this], arguments)) : __method(this); }"
  end.

(** [argumentNames]; [None] is the TypeError of a failed match. *)
Definition argumentNames (st : state) (this : loc) : option (list string) :=
  match heap st !! this with
  | None => None
  | Some obj =>
      option_map (map String.string_of_list_ascii)
        (argument_names (String.list_ascii_of_string (toString (fn_code obj))))
  end.

(** ** Vocabulary of the properties *)

(** The code of the function object at [l], if there is one. *)
Definition code_at (st : state) (l : loc) : option code :=
  fn_code <$> heap st !! l.

(** Calling [g] with receiver [t] and arguments [xs] enters [g] and from
    there is the call of [f] with receiver [ctx] and arguments [args]:
    same calls made, same outcome, same final state, whatever the fuel. *)
Definition calls_through (st : state) (g t : value) (xs : list value)
    (f : loc) (ctx : value) (args : list value) : Prop :=
  ∃ b, g = VFun b ∧
    ∀ fuel, invoke (S fuel) st g t xs
            = invoke fuel (log_call st b t xs) (VFun f) ctx args.

(** The statement of the context-fixing property of [bind], at one
    input: the callable [bind] returns, called with any receiver,
    calls [f] on [ctx] with the preset arguments followed by [xs]. *)
Definition bind_fixes_context (st : state) (f : loc) (ctx : value)
    (ps : list value) (t : value) (xs : list value) : Prop :=
  calls_through (bind st f (ctx :: ps)).1 (bind st f (ctx :: ps)).2 t xs
    f ctx (ps ++ xs).

(** A store with one user-written callable, which returns its [this]. *)
Definition returns_this : code :=
  Native false "function self() { return this; }" (λ this _, Ret this).

Definition one_callable : state :=
  State [FnObj returns_this ∅] [] VUndef [] 0.

(** [defer], in the words of its description: [delay] with the minimal
    delay [0.01] and the same arguments. *)
Definition defer_spec (st : state) (f : loc) (xs : list value) : state * value :=
  delay st f (VNum (1 # 100) :: xs).

(** The function literal [delay] hands to the scheduler. *)
Definition delayed (f : loc) (xs : list value) : code :=
  if has_length xs then DelayedArgs f xs else DelayedNoArgs f.

(** Timeout IDs are handed out in increasing order: every pending
    timeout has an ID below the next one. *)
Definition timers_fresh (st : state) : Prop :=
  Forall (λ tm, timer_id tm < next_timer st) (timers st).

(** The [_methodized] slot of [f] is as [methodize] leaves it: holding
    nothing that counts as true, or the callable [methodize] made for
    [f]. *)
Definition methodized_slot_ok (st : state) (f : loc) : Prop :=
  truthy (get_prop st f "_methodized") = false ∨
  ∃ m, get_prop st f "_methodized" = VFun m ∧
       code_at st m = Some (Methodized f).

(** The own property [name] of the function object at [l]. *)
Definition own_prop (st : state) (l : loc) (name : string) : option value :=
  heap st !! l ≫= λ obj, fn_props obj !! name.

(** The eight methods, with the arguments they are applied to. *)
Inductive operation :=
| OpArgumentNames
| OpBind (arguments : list value)
| OpBindAsEventListener (arguments : list value)
| OpCurry (arguments : list value)
| OpDelay (arguments : list value)
| OpDefer (arguments : list value)
| OpWrap (wrapper : value)
| OpMethodize.

(** The state an operation on [f] leaves. *)
Definition apply_op (st : state) (f : loc) (o : operation) : state :=
  match o with
  | OpArgumentNames => st
  | OpBind a => (bind st f a).1
  | OpBindAsEventListener a => (bindAsEventListener st f a).1
  | OpCurry a => (curry st f a).1
  | OpDelay a => (delay st f a).1
  | OpDefer a => (defer st f a).1
  | OpWrap w => (wrap st f w).1
  | OpMethodize => (methodize st f).1
  end.

(** The function object at [f], code and properties, is the same in
    both states. *)
Definition leaves_unchanged (st st' : state) (f : loc) : Prop :=
  heap st' !! f = heap st !! f.

(** A body that only ever calls callables of the set [S], whatever the
    calls return.  (Calling a value that is not a callable fails
    without entering anything.) *)
Inductive stays_within (S : loc → Prop) : prog → Prop :=
| stays_ret v : stays_within S (Ret v)
| stays_throw v : stays_within S (Throw v)
| stays_call g t a k :
    (∀ l, g = VFun l → S l) →
    (∀ v, stays_within S (k v)) →
    stays_within S (Call g t a k).

(** [S] is a set of user-written callables of the store [h] that call
    nothing outside [S], whatever receiver and arguments they get: in
    particular they never call an argument they are handed. *)
Definition closed (S : loc → Prop) (h : list fnobj) : Prop :=
  ∀ l, S l →
    ∃ strict source body,
      fn_code <$> h !! l = Some (Native strict source body) ∧
      ∀ this args, stays_within S (body this args).

(** The calls logged by a run that started in [st]. *)
Definition new_calls (st : state) (r : result) : list event :=
  drop (length (calls st)) (calls r.2).

(** A wrapper that answers by itself, never calling what it is given. *)
Definition answers_alone : code :=
  Native false "function (proceed) { return 42; }" (λ _ _, Ret (VNum 42)).

(** A wrapper that calls the original it is given with its remaining
    arguments and returns the result. *)
Definition proceeds : code :=
  Native false "function (proceed, x) { return proceed(x); }"
    (λ _ args, Call (array_get args 0) VUndef (slice args 1) Ret).

Definition three_callables : state :=
  State [FnObj returns_this ∅; FnObj answers_alone ∅; FnObj proceeds ∅]
        [] VUndef [] 0.

(** Calls made from inside a closed set stay inside it and create
    nothing. *)
Definition confined (S : loc → Prop) (h : list fnobj) (st : state) (r : result) : Prop :=
  heap r.2 = h ∧
  ∃ evs, calls r.2 = calls st ++ evs ∧ Forall (λ e, S (event_callee e)) evs.

(** *** Declarations, as they are written

    What may stand between the parts of a parameter list: a whitespace
    character, a block comment, or a line comment with the end of line
    that closes it. *)
Inductive pad_item :=
| Space (c : ascii)
| BlockComment (body : text)
| LineComment (body : text) (eol : ascii).

Definition render_item (p : pad_item) : text :=
  match p with
  | Space c => [c]
  | BlockComment body => "/" :: "*" :: body ++ ["*"; "/"]
  | LineComment body eol => "/" :: "/" :: body ++ [eol]
  end%char.

Definition render_pad (p : list pad_item) : text := concat (map render_item p).

(** A comment body ends where its terminator first occurs, and a closing
    parenthesis ends the parameter list wherever it stands. *)
Definition pad_item_ok (p : pad_item) : Prop :=
  match p with
  | Space c => is_space c = true
  | BlockComment body =>
      has_close body = false ∧ Forall (λ c, is_char ")" c = false) body
  | LineComment body eol =>
      has_eol body = false ∧ is_eol eol = true ∧
      Forall (λ c, is_char ")" c = false) body
  end.

(** A character of a parameter name. *)
Definition name_char (c : ascii) : bool :=
  negb (is_space c) && negb (is_char "," c) && negb (is_char ")" c)
  && negb (is_char "/" c).

(** One declared parameter: its name and what is written around it. *)
Record param := Param {
  param_before : list pad_item;
  param_name : text;
  param_after : list pad_item
}.

Definition render_param (p : param) : text :=
  render_pad (param_before p) ++ param_name p ++ render_pad (param_after p).

Definition param_ok (p : param) : Prop :=
  Forall pad_item_ok (param_before p) ∧
  param_name p ≠ [] ∧ Forall (λ c, name_char c = true) (param_name p) ∧
  Forall pad_item_ok (param_after p).

(** The parameters, separated by commas. *)
Fixpoint render_params (ps : list param) : text :=
  match ps with
  | [] => []
  | [p] => render_param p
  | p :: ps => render_param p ++ ","%char :: render_params ps
  end.

(** The text of a declaration: [lead function fname ( params ) body]. *)
Definition declaration (lead fname params body : text) : text :=
  lead ++ String.list_ascii_of_string "function" ++ fname
       ++ "("%char :: params ++ ")"%char :: body.

(** The head of a declaration: only whitespace and opening parentheses
    before the keyword, and no parenthesis in what stands between the
    keyword and the parameter list. *)
Definition head_ok (lead fname : text) : Prop :=
  Forall (λ c, is_space c || is_char "(" c = true) lead ∧
  Forall (λ c, is_char "(" c = false) fname.

(** [source] declares the parameters [ps], in this order. *)
Definition declares (source : string) (ps : list param) : Prop :=
  ∃ lead fname body,
    head_ok lead fname ∧ Forall param_ok ps ∧
    String.list_ascii_of_string source
    = declaration lead fname (render_params ps) body.


(** Names joined by commas. *)
Fixpoint join_commas (names : list text) : text :=
  match names with
  | [] => []
  | [n] => n
  | n :: names => n ++ ","%char :: join_commas names
  end.


(** A user-written callable with a given declaration text. *)
Definition declared (source : string) : code :=
  Native false source (λ _ _, Ret VUndef).

(** A declaration with three parameters, a block comment and a line
    comment, and one without parameters. *)
Definition three_parameters : string :=
  "function foo(a, /* second */ b, c // last
) { return a; }".


Definition no_parameters : string := "function () {}".

Definition declared_callables : state :=
  State [FnObj (declared three_parameters) ∅; FnObj (declared no_parameters) ∅]
        [] VUndef [] 0.


(** Padding as it can be written in a declaration: a comment body ends
    where its terminator first occurs, and nothing more is asked of it.
    Unlike [pad_item_ok], a closing parenthesis may stand in a comment. *)
Definition pad_item_written (p : pad_item) : Prop :=
  match p with
  | Space c => is_space c = true
  | BlockComment body => has_close body = false
  | LineComment body eol => has_eol body = false ∧ is_eol eol = true
  end.

Definition param_written (p : param) : Prop :=
  Forall pad_item_written (param_before p) ∧
  param_name p ≠ [] ∧ Forall (λ c, name_char c = true) (param_name p) ∧
  Forall pad_item_written (param_after p).

(** [source] is written with the parameters [ps], in this order, with
    whatever whitespace and comments around them. *)
Definition declares_written (source : string) (ps : list param) : Prop :=
  ∃ lead fname body,
    head_ok lead fname ∧ Forall param_written ps ∧
    String.list_ascii_of_string source
    = declaration lead fname (render_params ps) body.




(** * Properties *)

(** ** [update] appends *)

Lemma array_set_fill (a : list value) (k : nat) (v : value) (rest : list value) :
  array_set (a ++ replicate (S k) VUndef ++ rest) (length a + k) v
  = a ++ replicate k VUndef ++ v :: rest.
Proof.
  unfold array_set. rewrite !length_app, length_replicate.
  destruct (decide _) as [_|Hge]; [|simpl in Hge; lia].
  rewrite insert_app_r_alt by lia.
  replace (length a + k - length a) with k by lia.
  f_equal.
  replace (S k) with (k + 1) by lia.
  rewrite replicate_add, <- app_assoc. simpl.
  rewrite insert_app_r_alt by (rewrite length_replicate; lia).
  rewrite length_replicate, Nat.sub_diag. reflexivity.
Qed.

Lemma array_set_extend (a : list value) (k : nat) (v : value) :
  array_set a (length a + k) v = a ++ replicate k VUndef ++ [v].
Proof.
  unfold array_set. destruct (decide _) as [Hlt|_]; [lia|].
  by replace (length a + k - length a) with k by lia.
Qed.

Lemma array_get_drop (args : list value) (k : nat) :
  k < length args → drop k args = array_get args k :: drop (S k) args.
Proof.
  revert k. induction args as [|x args IH]; intros [|k] Hk; simpl in *;
    try lia; try done.
  apply IH. lia.
Qed.

Lemma update_loop_filled (a args : list value) (k : nat) :
  k ≤ length args →
  update_loop k (a ++ replicate k VUndef ++ drop k args) (length a) args
  = a ++ args.
Proof.
  induction k as [|k IH]; intros Hk; cbn [update_loop].
  - simpl. by rewrite drop_0.
  - rewrite array_set_fill, <- array_get_drop by lia. apply IH. lia.
Qed.

Lemma update_app (array args : list value) : update array args = array ++ args.
Proof.
  unfold update. destruct (length args) as [|k] eqn:Hlen; cbn [update_loop].
  - apply length_zero_iff_nil in Hlen. subst. by rewrite app_nil_r.
  - rewrite array_set_extend.
    assert (Hd : [array_get args k] = drop k args).
    { rewrite (array_get_drop args k) by lia.
      rewrite drop_ge by lia. done. }
    rewrite Hd. apply update_loop_filled. lia.
Qed.

Lemma merge_app (array args : list value) : merge array args = array ++ args.
Proof. unfold merge, slice. by rewrite drop_0, update_app. Qed.

(** ** Calling the module's closures *)

Lemma has_length_false (xs : list value) : has_length xs = false → xs = [].
Proof. by destruct xs. Qed.

Lemma code_at_Some (st : state) (l : loc) (c : code) :
  code_at st l = Some c → ∃ obj, heap st !! l = Some obj ∧ fn_code obj = c.
Proof.
  unfold code_at. destruct (heap st !! l) as [obj|]; simpl; [|done].
  intros [= <-]. by exists obj.
Qed.

Lemma code_at_alloc (st : state) (c : code) :
  code_at (alloc st c).1 (length (heap st)) = Some c.
Proof.
  unfold code_at, alloc. simpl.
  by rewrite lookup_app_r, Nat.sub_diag by lia.
Qed.

(** Unfolds one call of a closure whose code is known. *)
Ltac enter_closure H :=
  let obj := fresh "obj" in
  let Hobj := fresh "Hobj" in
  let Hcode := fresh "Hcode" in
  apply code_at_Some in H as (obj & Hobj & Hcode);
  eexists; split; [reflexivity|]; intros fuel;
  cbn [invoke]; rewrite Hobj, Hcode.

Lemma invoke_BindArgs st b f ctx ps t xs :
  code_at st b = Some (BindArgs f ctx ps) →
  calls_through st (VFun b) t xs f ctx (ps ++ xs).
Proof.
  intros H. enter_closure H.
  destruct xs as [|x xs]; cbn [has_length length Nat.eqb negb].
  - by rewrite app_nil_r.
  - by rewrite merge_app.
Qed.

Lemma invoke_BindNoArgs st b f ctx t xs :
  code_at st b = Some (BindNoArgs f ctx) →
  calls_through st (VFun b) t xs f ctx xs.
Proof.
  intros H. enter_closure H. by destruct xs.
Qed.

Lemma invoke_Curried st b f ps t xs :
  code_at st b = Some (Curried f ps) →
  calls_through st (VFun b) t xs f (this_of t) (ps ++ xs).
Proof.
  intros H. enter_closure H.
  destruct xs as [|x xs]; cbn [has_length length Nat.eqb negb].
  - by rewrite app_nil_r.
  - by rewrite merge_app.
Qed.

Lemma invoke_ListenerArgs st b f ctx ps t xs :
  code_at st b = Some (ListenerArgs f ctx ps) →
  calls_through st (VFun b) t xs f ctx
    (js_or (array_get xs 0) (window_event st) :: ps).
Proof.
  intros H. enter_closure H. by rewrite update_app.
Qed.

Lemma invoke_ListenerNoArgs st b f ctx t xs :
  code_at st b = Some (ListenerNoArgs f ctx) →
  calls_through st (VFun b) t xs f ctx
    [js_or (array_get xs 0) (window_event st)].
Proof.
  intros H. by enter_closure H.
Qed.

Lemma invoke_DelayedArgs st b f args t xs :
  code_at st b = Some (DelayedArgs f args) →
  calls_through st (VFun b) t xs f (VFun f) args.
Proof.
  intros H. by enter_closure H.
Qed.

Lemma invoke_DelayedNoArgs st b f t xs :
  code_at st b = Some (DelayedNoArgs f) →
  calls_through st (VFun b) t xs f (VFun f) [].
Proof.
  intros H. by enter_closure H.
Qed.

Lemma invoke_Methodized st b f t xs :
  code_at st b = Some (Methodized f) →
  calls_through st (VFun b) t xs f
    (if has_length xs then VNull else VUndef) (this_of t :: xs).
Proof.
  intros H. enter_closure H.
  destruct xs as [|x xs]; cbn [has_length length Nat.eqb negb].
  - done.
  - by rewrite update_app.
Qed.

Lemma this_of_object (t : value) : is_object t → this_of t = t.
Proof. by destruct t. Qed.

Lemma this_of_defined (t : value) : this_of t ≠ VUndef.
Proof. by destruct t. Qed.

(** ** [bind] *)

Lemma bind_guard_false (ctx : value) (ps : list value) :
  ctx ≠ VUndef ∨ ps ≠ [] →
  (length (ctx :: ps) <? 2) && isUndefined (array_get (ctx :: ps) 0) = false.
Proof.
  intros [Hctx|Hps].
  - destruct ctx; try done. all: by rewrite andb_false_r.
  - by destruct ps.
Qed.

Lemma bind_new (st : state) (f : loc) (ctx : value) (ps : list value) :
  ctx ≠ VUndef ∨ ps ≠ [] →
  bind st f (ctx :: ps)
  = alloc st (if has_length ps then BindArgs f ctx ps else BindNoArgs f ctx).
Proof.
  intros H. unfold bind. rewrite (bind_guard_false _ _ H).
  unfold slice. cbn [drop array_get nth]. rewrite drop_0.
  by destruct (has_length ps).
Qed.

Lemma invoke_bound st b f ctx ps t xs :
  code_at st b = Some (if has_length ps then BindArgs f ctx ps else BindNoArgs f ctx) →
  calls_through st (VFun b) t xs f ctx (ps ++ xs).
Proof.
  destruct (has_length ps) eqn:Hps.
  - apply invoke_BindArgs.
  - apply has_length_false in Hps as ->. apply invoke_BindNoArgs.
Qed.

Lemma bind_new_calls_original (st : state) (f : loc) (ctx : value)
    (ps : list value) :
  ctx ≠ VUndef ∨ ps ≠ [] →
  (bind st f (ctx :: ps)).2 = VFun (length (heap st)) ∧
  ∀ st' t xs,
    code_at st' (length (heap st))
      = code_at (bind st f (ctx :: ps)).1 (length (heap st)) →
    calls_through st' (VFun (length (heap st))) t xs f ctx (ps ++ xs).
Proof.
  intros H. rewrite (bind_new _ _ _ _ H). split; [reflexivity|].
  intros st' t xs Hc. rewrite code_at_alloc in Hc. by apply invoke_bound.
Qed.

(** C1, as amended.  Unless [bind] is given nothing but an undefined
    context, it returns a new callable, and that callable, called with
    any receiver [t] and arguments [xs], in the state [bind] leaves or
    any later state that still holds it, calls the original [f] on the
    fixed context [ctx] with the preset arguments followed by [xs]; with
    no preset arguments that is the call of [f] on [ctx] with [xs]. *)
Theorem bind_fixes_context_when_bound (st : state) (f : loc) (ctx : value)
    (ps : list value) :
  ctx ≠ VUndef ∨ ps ≠ [] →
  (∀ t xs, bind_fixes_context st f ctx ps t xs) ∧
  (bind st f (ctx :: ps)).2 = VFun (length (heap st)) ∧
  (∀ st' t xs,
     code_at st' (length (heap st))
       = code_at (bind st f (ctx :: ps)).1 (length (heap st)) →
     calls_through st' (VFun (length (heap st))) t xs f ctx (ps ++ xs)) ∧
  (ps = [] → ∀ t xs,
     calls_through (bind st f [ctx]).1 (bind st f [ctx]).2 t xs f ctx xs).
Proof.
  intros H. destruct (bind_new_calls_original st f ctx ps H) as [Hnew Hlater].
  split; [|split; [exact Hnew|split; [exact Hlater|]]].
  - intros t xs. unfold bind_fixes_context. rewrite Hnew. by apply Hlater.
  - intros -> t xs. rewrite Hnew. by apply (Hlater _ t xs).
Qed.

Lemma bind_fixes_context_when_bound_witness :
  (VObj 1 ≠ VUndef ∨ [VNum 1] ≠ []) ∧
  bind_fixes_context one_callable 0 (VObj 1) [VNum 1] (VObj 7) [VNum 2].
Proof.
  split; [left; discriminate|].
  destruct (bind_fixes_context_when_bound one_callable 0 (VObj 1) [VNum 1])
    as [H _]; [left; discriminate|].
  apply H.
Defined.

(** C1, as stated, fails: [bind(undefined)] returns the original
    callable itself, so a call of the result with receiver [VObj 7] runs
    the original on that receiver, not on the undefined context. *)
Lemma bind_undefined_keeps_caller_context :
  bind one_callable 0 [VUndef] = (one_callable, VFun 0) ∧
  (invoke 2 one_callable (VFun 0) (VObj 7) []).1 = Returned (VObj 7) ∧
  (invoke 2 one_callable (VFun 0) VUndef []).1 = Returned window ∧
  ¬ bind_fixes_context one_callable 0 VUndef [] (VObj 7) [].
Proof.
  split; [reflexivity|]. split; [reflexivity|]. split; [reflexivity|].
  intros (b & Hb & Hcall). cbn in Hb. injection Hb as <-.
  specialize (Hcall 1). vm_compute in Hcall. discriminate Hcall.
Qed.

(** C10.  For a callable [f] of the store, [bind] returns [f] itself,
    leaving the state as it is, exactly when it is given fewer than two
    arguments and the first is absent or undefined; so [bind()] and
    [bind(undefined)] return [f], while [bind(undefined, x, ...)]
    returns a new callable that calls [f] on the undefined context with
    the preset arguments followed by the arguments of the call. *)
Theorem bind_returns_original_iff (st : state) (f : loc) (arguments : list value) :
  f < length (heap st) →
  (bind st f arguments = (st, VFun f)
   ↔ length arguments < 2 ∧ array_get arguments 0 = VUndef) ∧
  bind st f [] = (st, VFun f) ∧
  bind st f [VUndef] = (st, VFun f) ∧
  (∀ x ps,
     (bind st f (VUndef :: x :: ps)).2 = VFun (length (heap st)) ∧
     VFun (length (heap st)) ≠ VFun f ∧
     ∀ t xs, calls_through (bind st f (VUndef :: x :: ps)).1
               (bind st f (VUndef :: x :: ps)).2 t xs
               f VUndef ((x :: ps) ++ xs)).
Proof.
  intros Hf. split; [|split; [reflexivity|split; [reflexivity|]]].
  - unfold bind.
    destruct ((length arguments <? 2) && isUndefined (array_get arguments 0)) eqn:Hg.
    + apply andb_true_iff in Hg as [Hlen Hu].
      apply Nat.ltb_lt in Hlen. split; [|done]. intros _. split; [done|].
      by destruct (array_get arguments 0).
    + split.
      * intros Heq. exfalso.
        assert (Hv : VFun (length (heap st)) = VFun f).
        { destruct (has_length (slice arguments 1));
            apply (f_equal snd) in Heq; exact Heq. }
        injection Hv. lia.
      * intros [Hlen Hu]. apply Nat.ltb_lt in Hlen.
        rewrite Hlen, Hu in Hg. done.
  - intros x ps.
    assert (Hb : VUndef ≠ VUndef ∨ x :: ps ≠ []) by (by right).
    split; [by rewrite (bind_new _ _ _ _ Hb)|].
    split; [intros [= Heq]; lia|].
    intros t xs.
    destruct (bind_new_calls_original st f VUndef (x :: ps) Hb) as [Hnew Hlater].
    rewrite Hnew. by apply Hlater.
Qed.

Lemma bind_returns_original_iff_witness :
  0 < length (heap one_callable) ∧
  bind one_callable 0 [VUndef] = (one_callable, VFun 0) ∧
  (bind one_callable 0 [VUndef; VNum 1]).2 = VFun 1.
Proof.
  split; [simpl; lia|].
  destruct (bind_returns_original_iff one_callable 0 [VUndef])
    as (_ & _ & Hu & Hnew); [simpl; lia|].
  split; [exact Hu|]. apply (Hnew (VNum 1) []).
Defined.

(** ** [curry] *)

Lemma curry_new (st : state) (f : loc) (ps : list value) :
  ps ≠ [] → curry st f ps = alloc st (Curried f ps).
Proof.
  intros Hps. unfold curry, slice. rewrite drop_0. by destruct ps.
Qed.

(** C4.  [curry] without arguments returns the original callable and
    touches nothing.  With preset arguments [ps] it returns a new
    callable which, called with receiver [c] and arguments [xs] (in the
    state [curry] leaves or any later one that still holds it), calls
    the original with the preset arguments followed by [xs], on the
    context the new callable itself runs with at that call: [this], which
    is the caller's [c] whenever [c] is an object.  Nothing is fixed at
    [curry] time. *)
Theorem curry_partial_application (st : state) (f : loc) :
  curry st f [] = (st, VFun f) ∧
  ∀ ps, ps ≠ [] →
    (curry st f ps).2 = VFun (length (heap st)) ∧
    ∀ st' c xs,
      code_at st' (length (heap st))
        = code_at (curry st f ps).1 (length (heap st)) →
      calls_through st' (VFun (length (heap st))) c xs f (this_of c) (ps ++ xs) ∧
      (is_object c → this_of c = c).
Proof.
  split; [reflexivity|]. intros ps Hps. rewrite (curry_new _ _ _ Hps).
  split; [reflexivity|]. intros st' c xs Hc. rewrite code_at_alloc in Hc.
  split; [by apply invoke_Curried|apply this_of_object].
Qed.

Lemma curry_partial_application_witness :
  [VNum 1; VNum 2] ≠ [] ∧
  calls_through (curry one_callable 0 [VNum 1; VNum 2]).1 (VFun 1)
    (VObj 7) [VNum 3] 0 (this_of (VObj 7)) [VNum 1; VNum 2; VNum 3].
Proof.
  split; [discriminate|].
  destruct (curry_partial_application one_callable 0) as [_ H].
  destruct (H [VNum 1; VNum 2]) as [_ Hcall]; [discriminate|].
  apply (Hcall _ (VObj 7) [VNum 3]). reflexivity.
Defined.

(** [curry(1, 2)] called later with [(3)] on receiver [VObj 7]: the
    original is entered with that receiver and [(1, 2, 3)]. *)
Example curry_1_2_then_3 :
  calls (invoke 3 (curry one_callable 0 [VNum 1; VNum 2]).1
           (curry one_callable 0 [VNum 1; VNum 2]).2 (VObj 7) [VNum 3]).2
  = [Called 1 (VObj 7) [VNum 3];
     Called 0 (VObj 7) [VNum 1; VNum 2; VNum 3]].
Proof. reflexivity. Qed.

(** ** [bindAsEventListener] *)

Lemma js_or_truthy (e w : value) : truthy e = true → js_or e w = e.
Proof. unfold js_or. by intros ->. Qed.

Lemma bindAsEventListener_new (st : state) (f : loc) (ctx : value) (ps : list value) :
  bindAsEventListener st f (ctx :: ps)
  = alloc st (if has_length ps then ListenerArgs f ctx ps
              else ListenerNoArgs f ctx).
Proof.
  unfold bindAsEventListener, slice. cbn [drop array_get nth]. rewrite drop_0.
  by destruct (has_length ps).
Qed.

Lemma invoke_listener st b f ctx ps t xs :
  code_at st b = Some (if has_length ps then ListenerArgs f ctx ps
                       else ListenerNoArgs f ctx) →
  calls_through st (VFun b) t xs f ctx
    (js_or (array_get xs 0) (window_event st) :: ps).
Proof.
  destruct (has_length ps) eqn:Hps.
  - apply invoke_ListenerArgs.
  - apply has_length_false in Hps as ->. apply invoke_ListenerNoArgs.
Qed.

(** C8.  [bindAsEventListener(ctx, ps...)] returns a new callable.
    Called with an event [e] (an object, or any value that counts as
    true) as its first argument, it calls the original on [ctx] with [e]
    followed by the preset arguments, whatever its own receiver and
    whatever further arguments it is given; called with no event, or an
    undefined one, it passes [window.event] in its place. *)
Theorem bindAsEventListener_prepends_event (st : state) (f : loc) (ctx : value)
    (ps : list value) :
  (bindAsEventListener st f (ctx :: ps)).2 = VFun (length (heap st)) ∧
  ∀ st' t,
    code_at st' (length (heap st))
      = code_at (bindAsEventListener st f (ctx :: ps)).1 (length (heap st)) →
    (∀ e rest, truthy e = true →
       calls_through st' (VFun (length (heap st))) t (e :: rest) f ctx (e :: ps)) ∧
    calls_through st' (VFun (length (heap st))) t [] f ctx
      (window_event st' :: ps) ∧
    (∀ rest,
       calls_through st' (VFun (length (heap st))) t (VUndef :: rest) f ctx
         (window_event st' :: ps)).
Proof.
  rewrite bindAsEventListener_new. split; [reflexivity|].
  intros st' t Hc. rewrite code_at_alloc in Hc.
  split; [|split].
  - intros e rest He.
    rewrite <- (js_or_truthy e (window_event st') He) at 2.
    by apply (invoke_listener st' _ f ctx ps t (e :: rest)).
  - by apply (invoke_listener st' _ f ctx ps t []).
  - intros rest. by apply (invoke_listener st' _ f ctx ps t (VUndef :: rest)).
Qed.

Lemma bindAsEventListener_prepends_event_witness :
  truthy (VObj 5) = true ∧
  calls_through (bindAsEventListener one_callable 0 [VObj 1; VNum 2]).1
    (VFun 1) VUndef [VObj 5] 0 (VObj 1) [VObj 5; VNum 2].
Proof.
  split; [reflexivity|].
  destruct (bindAsEventListener_prepends_event one_callable 0 (VObj 1) [VNum 2])
    as [_ H].
  destruct (H (bindAsEventListener one_callable 0 [VObj 1; VNum 2]).1 VUndef)
    as [He _]; [reflexivity|].
  apply (He (VObj 5) []). reflexivity.
Defined.

(** ** [delay] and [defer] *)

(** C7.  [defer(xs...)] is [delay(0.01, xs...)]: the same timeout is
    registered with the same arguments, the state is left the same and
    the same token comes back. *)
Theorem defer_is_delay_minimal (st : state) (f : loc) (xs : list value) :
  defer st f xs = defer_spec st f xs.
Proof.
  unfold defer, defer_spec. destruct xs as [|x xs]; [reflexivity|].
  cbn [has_length length Nat.eqb negb]. by rewrite update_app.
Qed.

Lemma delay_unfold (st : state) (f : loc) (s : value) (xs : list value) :
  delay st f (s :: xs)
  = setTimeout (alloc st (delayed f xs)).1 (VFun (length (heap st))) (Times1000 s).
Proof.
  unfold delay, delayed, slice. cbn [drop array_get nth]. rewrite drop_0.
  by destruct (has_length xs).
Qed.

Lemma invoke_delayed st b f xs t late :
  code_at st b = Some (delayed f xs) →
  calls_through st (VFun b) t late f (VFun f) xs.
Proof.
  unfold delayed. destruct (has_length xs) eqn:Hxs.
  - apply invoke_DelayedArgs.
  - apply has_length_false in Hxs as ->. apply invoke_DelayedNoArgs.
Qed.

Lemma Qeq_bool_inject (a b : nat) :
  Qeq_bool (inject_Z (Z.of_nat a)) (inject_Z (Z.of_nat b)) = (a =? b).
Proof.
  unfold Qeq_bool, inject_Z. cbn [Qnum Qden]. rewrite !Z.mul_1_r.
  destruct (Nat.eqb_spec a b) as [->|Hne].
  - apply Z.eqb_refl.
  - apply Z.eqb_neq. lia.
Qed.

Lemma timer_has_token_id (id : nat) (tm : timer) :
  timer_has_token (token id) tm = (id =? timer_id tm).
Proof. unfold timer_has_token, token. apply Qeq_bool_inject. Qed.

Section pending.
Context (id : nat).
Implicit Types (ts : list timer) (tm : timer).

Let older tm : Prop := timer_id tm < id.

Lemma find_new_timer ts tm :
  Forall older ts → timer_id tm = id →
  find (λ tm, timer_id tm =? id) (ts ++ [tm]) = Some tm.
Proof.
  intros Hts Hid. induction Hts as [|tm' ts' Hlt _ IH]; simpl.
  - by rewrite Hid, Nat.eqb_refl.
  - unfold older in Hlt. destruct (Nat.eqb_spec (timer_id tm') id); [lia|].
    apply IH.
Qed.

Lemma find_no_timer ts :
  Forall older ts → find (λ tm, timer_id tm =? id) ts = None.
Proof.
  intros Hts. induction Hts as [|tm' ts' Hlt _ IH]; simpl; [done|].
  unfold older in Hlt. destruct (Nat.eqb_spec (timer_id tm') id); [lia|].
  apply IH.
Qed.

Lemma filter_keeps_pending ts :
  Forall older ts → filter (λ tm, (timer_id tm =? id) = false) ts = ts.
Proof.
  intros Hts. induction Hts as [|tm' ts' Hlt _ IH]; [done|].
  rewrite filter_cons_True; [by rewrite IH|].
  unfold older in Hlt. apply Nat.eqb_neq. lia.
Qed.

Lemma filter_drops_new_timer ts tm :
  Forall older ts → timer_id tm = id →
  filter (λ tm, (timer_id tm =? id) = false) (ts ++ [tm]) = ts.
Proof.
  intros Hts Hid. rewrite filter_app, filter_keeps_pending by done.
  rewrite filter_cons_False, filter_nil; [by rewrite app_nil_r|].
  rewrite Hid, Nat.eqb_refl. done.
Qed.

Lemma filter_token_drops_new_timer ts tm :
  Forall older ts → timer_id tm = id →
  filter (λ tm, timer_has_token (token id) tm = false) (ts ++ [tm]) = ts.
Proof.
  intros Hts Hid. rewrite <- (filter_drops_new_timer ts tm Hts Hid) at 2.
  apply list_filter_iff. intros tm'.
  by rewrite timer_has_token_id, (Nat.eqb_sym id).
Qed.
End pending.

(** C9.  [delay(s, xs...)] creates one function object, the thunk, hands
    it to the scheduler with the delay [s * 1000] as a new pending
    timeout and returns the scheduler's token for it.  Whatever receiver
    and arguments the thunk is called with, it calls the original [f]
    with [f] itself as context and exactly [xs]; that is what the
    dispatch of the timeout does, once (the timeout is no longer
    pending).  Clearing the token before the dispatch leaves the queue
    as it was before [delay], and a dispatch of that ID then calls
    nothing. *)
Theorem delay_schedules_call (st : state) (f : loc) (s : value) (xs : list value) :
  timers_fresh st →
  let thunk := length (heap st) in
  let id := next_timer st in
  let st' := (delay st f (s :: xs)).1 in
  (delay st f (s :: xs)).2 = token id ∧
  heap st' = heap st ++ [FnObj (delayed f xs) ∅] ∧
  timers st' = timers st ++ [Timer id (VFun thunk) (Times1000 s)] ∧
  calls st' = calls st ∧
  (∀ t late, calls_through st' (VFun thunk) t late f (VFun f) xs) ∧
  (∀ fuel late,
     dispatch (S fuel) st' id late
     = invoke fuel (log_call (set_timers st' (timers st)) thunk VUndef late)
         (VFun f) (VFun f) xs) ∧
  clearTimeout st' (token id) = set_timers st' (timers st) ∧
  (∀ fuel late,
     dispatch fuel (clearTimeout st' (token id)) id late
     = (Returned VUndef, clearTimeout st' (token id))).
Proof.
  intros Hfresh thunk id st'. subst thunk id st'. rewrite delay_unfold.
  assert (Hcode : ∀ ts,
    code_at (set_timers (setTimeout (alloc st (delayed f xs)).1
                           (VFun (length (heap st))) (Times1000 s)).1 ts)
      (length (heap st)) = Some (delayed f xs)).
  { intros ts. apply (code_at_alloc st (delayed f xs)). }
  assert (Hclear :
    clearTimeout (setTimeout (alloc st (delayed f xs)).1
                    (VFun (length (heap st))) (Times1000 s)).1
      (token (next_timer st))
    = set_timers (setTimeout (alloc st (delayed f xs)).1
                    (VFun (length (heap st))) (Times1000 s)).1 (timers st)).
  { unfold clearTimeout. f_equal. cbn [setTimeout alloc fst timers set_heap].
    by apply filter_token_drops_new_timer. }
  split; [reflexivity|]. split; [reflexivity|]. split; [reflexivity|].
  split; [reflexivity|]. split; [|split; [|split]].
  - intros t late. apply invoke_delayed. apply (code_at_alloc st (delayed f xs)).
  - intros fuel late. unfold dispatch.
    cbn [setTimeout alloc fst timers set_heap].
    rewrite (find_new_timer _ _ _ Hfresh) by reflexivity.
    rewrite (filter_drops_new_timer _ _ _ Hfresh) by reflexivity.
    cbn [timer_fn].
    destruct (invoke_delayed _ _ f xs VUndef late (Hcode (timers st)))
      as (b & [= <-] & Hcall).
    apply Hcall.
  - exact Hclear.
  - intros fuel late. rewrite Hclear. unfold dispatch.
    cbn [timers set_timers]. by rewrite (find_no_timer _ _ Hfresh).
Qed.

Lemma delay_schedules_call_witness :
  timers_fresh one_callable ∧
  (delay one_callable 0 [VNum (1 # 10); VStr "x"]).2 = token 0 ∧
  dispatch 3 (delay one_callable 0 [VNum (1 # 10); VStr "x"]).1 0 []
  = invoke 2
      (log_call (set_timers (delay one_callable 0 [VNum (1 # 10); VStr "x"]).1 [])
         1 VUndef [])
      (VFun 0) (VFun 0) [VStr "x"].
Proof.
  split; [apply Forall_nil_2|].
  destruct (delay_schedules_call one_callable 0 (VNum (1 # 10)) [VStr "x"])
    as (Htok & _ & _ & _ & _ & Hfire & _); [apply Forall_nil_2|].
  split; [exact Htok|]. apply (Hfire 2 []).
Defined.

(** [delay(0.1, "x")] on the callable that returns its [this]: the
    dispatch enters the thunk and then the original, with itself as
    context and the one argument; after [clearTimeout] nothing is
    entered. *)
Example delay_then_dispatch :
  let st' := (delay one_callable 0 [VNum (1 # 10); VStr "x"]).1 in
  dispatch 3 st' 0 []
  = (Returned (VFun 0),
     State (heap st') [Called 1 VUndef []; Called 0 (VFun 0) [VStr "x"]]
       VUndef [] 1).
Proof. reflexivity. Qed.

Example delay_then_clear :
  let r := delay one_callable 0 [VNum (1 # 10); VStr "x"] in
  calls (dispatch 3 (clearTimeout r.1 r.2) 0 []).2 = [].
Proof. reflexivity. Qed.

(** The scheduler invariant is kept by [delay]. *)
Lemma delay_timers_fresh (st : state) (f : loc) (s : value) (xs : list value) :
  timers_fresh st → timers_fresh (delay st f (s :: xs)).1.
Proof.
  intros Hfresh. rewrite delay_unfold. unfold timers_fresh.
  cbn [setTimeout alloc fst timers next_timer set_heap].
  apply Forall_app. split.
  - eapply Forall_impl; [exact Hfresh|]. intros tm Hlt. simpl in *. lia.
  - apply Forall_singleton. simpl. lia.
Qed.

(** ** [methodize] *)

Lemma methodize_cached_hit (st : state) (f : loc) :
  truthy (get_prop st f "_methodized") = true →
  methodize st f = (st, get_prop st f "_methodized").
Proof. unfold methodize. by intros ->. Qed.

Lemma methodize_cached_miss (st : state) (f : loc) :
  truthy (get_prop st f "_methodized") = false →
  methodize st f
  = (set_prop (alloc st (Methodized f)).1 f "_methodized" (VFun (length (heap st))),
     VFun (length (heap st))).
Proof. unfold methodize. by intros ->. Qed.

Lemma heap_set_prop_alloc (st : state) (f : loc) (c : code) (name : string)
    (v : value) (obj : fnobj) :
  heap st !! f = Some obj →
  heap (set_prop (alloc st c).1 f name v)
  = <[f := FnObj (fn_code obj) (<[name := v]> (fn_props obj))]> (heap st)
    ++ [FnObj c ∅].
Proof.
  intros Hobj. unfold set_prop, alloc. cbn [fst heap set_heap].
  rewrite lookup_app_l by (by eapply lookup_lt_Some).
  rewrite Hobj. cbn [heap set_heap].
  apply insert_app_l. by eapply lookup_lt_Some.
Qed.

Lemma get_prop_set_prop_alloc (st : state) (f : loc) (c : code) (name : string)
    (v : value) :
  f < length (heap st) →
  get_prop (set_prop (alloc st c).1 f name v) f name = v.
Proof.
  intros Hf. destruct (lookup_lt_is_Some_2 _ _ Hf) as [obj Hobj].
  unfold get_prop. rewrite (heap_set_prop_alloc _ _ _ _ _ _ Hobj).
  rewrite lookup_app_l by (by rewrite length_insert).
  rewrite list_lookup_insert_eq by done. cbn [fn_props].
  by rewrite lookup_insert_eq.
Qed.

Lemma code_at_set_prop_alloc (st : state) (f : loc) (c : code) (name : string)
    (v : value) :
  f < length (heap st) →
  code_at (set_prop (alloc st c).1 f name v) (length (heap st)) = Some c.
Proof.
  intros Hf. destruct (lookup_lt_is_Some_2 _ _ Hf) as [obj Hobj].
  unfold code_at. rewrite (heap_set_prop_alloc _ _ _ _ _ _ Hobj).
  rewrite lookup_app_r by (by rewrite length_insert).
  by rewrite length_insert, Nat.sub_diag.
Qed.

(** What [methodize] returns for a callable whose slot is in order, and
    what its slot then holds. *)
Lemma methodize_result (st : state) (f : loc) :
  f < length (heap st) →
  methodized_slot_ok st f →
  ∃ m, (methodize st f).2 = VFun m ∧
       get_prop (methodize st f).1 f "_methodized" = VFun m ∧
       code_at (methodize st f).1 m = Some (Methodized f).
Proof.
  intros Hf Hok.
  destruct (truthy (get_prop st f "_methodized")) eqn:Hslot.
  - destruct Hok as [Hfalse|(m & Hm & Hcode)]; [congruence|].
    exists m. by rewrite (methodize_cached_hit _ _ Hslot).
  - exists (length (heap st)). rewrite (methodize_cached_miss _ _ Hslot).
    cbn [fst snd]. split; [done|]. split.
    + by apply get_prop_set_prop_alloc.
    + by apply code_at_set_prop_alloc.
Qed.

(** The slot is in order on a callable that has no own properties, and
    stays in order under [methodize]. *)
Lemma methodized_slot_ok_fresh (st : state) (f : loc) (c : code) :
  heap st !! f = Some (FnObj c ∅) → methodized_slot_ok st f.
Proof.
  intros Hobj. left. unfold get_prop. by rewrite Hobj.
Qed.

Lemma methodized_slot_ok_methodize (st : state) (f : loc) :
  f < length (heap st) →
  methodized_slot_ok st f → methodized_slot_ok (methodize st f).1 f.
Proof.
  intros Hf Hok. destruct (methodize_result st f Hf Hok) as (m & _ & Hslot & Hcode).
  right. by exists m.
Qed.

(** C2.  On a callable [f] of the store, a second [methodize] returns
    the very value the first returned and changes nothing.  When the
    [_methodized] slot of [f] is in order, that value is a callable [m]
    which, called method-style with receiver [r] and arguments [xs],
    calls [f] with the receiver put before [xs] (as the method sees it:
    [this], which is [r] itself for every object [r]) and with a neutral
    context: [null] through [apply] when there are arguments, none at
    all otherwise, both of which a non-strict [f] sees as the global
    object. *)
Theorem methodize_cached_and_prepends (st : state) (f : loc) :
  f < length (heap st) →
  methodize (methodize st f).1 f = methodize st f ∧
  (methodized_slot_ok st f →
   ∃ m, (methodize st f).2 = VFun m ∧
        ∀ st' r xs,
          code_at st' m = code_at (methodize st f).1 m →
          calls_through st' (VFun m) r xs f
            (if has_length xs then VNull else VUndef) (this_of r :: xs) ∧
          this_of (if has_length xs then VNull else VUndef) = window ∧
          (is_object r → this_of r = r)).
Proof.
  intros Hf. split.
  - destruct (truthy (get_prop st f "_methodized")) eqn:Hslot.
    + rewrite (methodize_cached_hit _ _ Hslot). cbn [fst].
      by apply methodize_cached_hit.
    + rewrite (methodize_cached_miss _ _ Hslot). cbn [fst].
      rewrite methodize_cached_hit; by rewrite get_prop_set_prop_alloc.
  - intros Hok.
    destruct (methodize_result st f Hf Hok) as (m & Hm & Hslot & Hcode).
    exists m. split; [exact Hm|].
    intros st' r xs Hc. rewrite Hcode in Hc. split; [|split].
    + by apply invoke_Methodized.
    + by destruct (has_length xs).
    + apply this_of_object.
Qed.

Lemma methodize_cached_and_prepends_witness :
  0 < length (heap one_callable) ∧
  methodized_slot_ok one_callable 0 ∧
  methodize (methodize one_callable 0).1 0 = methodize one_callable 0 ∧
  ∃ m, (methodize one_callable 0).2 = VFun m ∧
       calls_through (methodize one_callable 0).1 (VFun m) (VObj 7) [VNum 5]
         0 VNull [VObj 7; VNum 5].
Proof.
  split; [simpl; lia|]. split; [left; reflexivity|].
  destruct (methodize_cached_and_prepends one_callable 0) as [Hagain H];
    [simpl; lia|].
  split; [exact Hagain|].
  destruct H as (m & Hm & Hcall); [left; reflexivity|].
  exists m. split; [exact Hm|].
  apply (Hcall (methodize one_callable 0).1 (VObj 7) [VNum 5] eq_refl).
Defined.

(** [receiver.method(x)] on the methodized callable: the original is
    entered with [(receiver, x)]. *)
Example methodize_then_call :
  let r := methodize one_callable 0 in
  r.2 = VFun 1 ∧
  (methodize r.1 0).2 = VFun 1 ∧
  calls (invoke 3 r.1 r.2 (VObj 7) [VNum 5]).2
  = [Called 1 (VObj 7) [VNum 5]; Called 0 VNull [VObj 7; VNum 5]].
Proof. by vm_compute. Qed.

(** ** What the operations leave untouched *)

Lemma heap_alloc (st : state) (c : code) :
  heap (alloc st c).1 = heap st ++ [FnObj c ∅].
Proof. reflexivity. Qed.

Ltac no_new := exists []; split; [by rewrite app_nil_r|simpl; lia].
Ltac one_new := eexists; split; [apply heap_alloc|simpl; lia].

Lemma heap_bind (st : state) (f : loc) (a : list value) :
  ∃ new, heap (bind st f a).1 = heap st ++ new ∧ length new ≤ 1.
Proof.
  unfold bind.
  destruct ((length a <? 2) && isUndefined (array_get a 0)); [no_new|].
  destruct (has_length (slice a 1)); one_new.
Qed.

Lemma heap_bindAsEventListener (st : state) (f : loc) (a : list value) :
  ∃ new, heap (bindAsEventListener st f a).1 = heap st ++ new ∧ length new ≤ 1.
Proof.
  unfold bindAsEventListener. destruct (has_length (slice a 1)); one_new.
Qed.

Lemma heap_curry (st : state) (f : loc) (a : list value) :
  ∃ new, heap (curry st f a).1 = heap st ++ new ∧ length new ≤ 1.
Proof.
  unfold curry. destruct (negb (has_length a)); [no_new|one_new].
Qed.

Lemma heap_delay (st : state) (f : loc) (a : list value) :
  ∃ new, heap (delay st f a).1 = heap st ++ new ∧ length new ≤ 1.
Proof.
  unfold delay. destruct (has_length (slice a 1)); one_new.
Qed.

Lemma heap_defer (st : state) (f : loc) (a : list value) :
  ∃ new, heap (defer st f a).1 = heap st ++ new ∧ length new ≤ 1.
Proof.
  unfold defer. destruct (has_length a); apply heap_delay.
Qed.

Lemma heap_apply_op (st : state) (f : loc) (o : operation) :
  o ≠ OpMethodize →
  ∃ new, heap (apply_op st f o) = heap st ++ new ∧ length new ≤ 1.
Proof.
  intros Ho. destruct o; cbn [apply_op].
  - no_new.
  - apply heap_bind.
  - apply heap_bindAsEventListener.
  - apply heap_curry.
  - apply heap_delay.
  - apply heap_defer.
  - one_new.
  - done.
Qed.

Lemma heap_methodize (st : state) (f : loc) (obj : fnobj) :
  heap st !! f = Some obj →
  truthy (get_prop st f "_methodized") = false →
  heap (methodize st f).1
  = <[f := FnObj (fn_code obj)
             (<["_methodized" := VFun (length (heap st))]> (fn_props obj))]>
      (heap st)
    ++ [FnObj (Methodized f) ∅].
Proof.
  intros Hobj Hslot. rewrite (methodize_cached_miss _ _ Hslot). cbn [fst].
  by apply heap_set_prop_alloc.
Qed.

(** C3, as amended.  Applied to a callable [f] of the store, every
    operation other than [methodize] leaves the function object of [f],
    and of every other callable there is, exactly as it was, and adds at
    most one new function object.  [methodize] leaves the code of [f]
    and every property of [f] other than [_methodized] as they were, and
    every other callable untouched.  When the slot holds a value that
    counts as true it changes nothing at all; when it does not, it makes
    one new callable, the methodized [f], and stores it in the
    [_methodized] property of [f]. *)
Theorem operations_leave_original (st : state) (f : loc) (o : operation) :
  f < length (heap st) →
  (o ≠ OpMethodize →
     (∀ g, g < length (heap st) → leaves_unchanged st (apply_op st f o) g) ∧
     ∃ new, heap (apply_op st f o) = heap st ++ new ∧ length new ≤ 1) ∧
  (o = OpMethodize →
     code_at (apply_op st f o) f = code_at st f ∧
     (∀ name, name ≠ "_methodized" →
        own_prop (apply_op st f o) f name = own_prop st f name) ∧
     (∀ g, g < length (heap st) → g ≠ f →
        leaves_unchanged st (apply_op st f o) g) ∧
     (truthy (get_prop st f "_methodized") = true → apply_op st f o = st) ∧
     (truthy (get_prop st f "_methodized") = false →
        (methodize st f).2 = VFun (length (heap st)) ∧
        length (heap (apply_op st f o)) = S (length (heap st)) ∧
        code_at (apply_op st f o) (length (heap st)) = Some (Methodized f) ∧
        own_prop (apply_op st f o) f "_methodized"
        = Some (VFun (length (heap st))) ∧
        get_prop (apply_op st f o) f "_methodized" = (methodize st f).2)).
Proof.
  intros Hf. split.
  - intros Ho. destruct (heap_apply_op st f o Ho) as (new & Hheap & Hlen).
    split; [|by exists new].
    intros g Hg. unfold leaves_unchanged. rewrite Hheap. by apply lookup_app_l.
  - intros ->. cbn [apply_op].
    destruct (truthy (get_prop st f "_methodized")) eqn:Hslot.
    { rewrite (methodize_cached_hit _ _ Hslot). by cbn [fst]. }
    destruct (lookup_lt_is_Some_2 _ _ Hf) as [obj Hobj].
    pose proof (heap_methodize st f obj Hobj Hslot) as Hheap.
    split; [|split; [|split; [|split; [done|]]]].
    + unfold code_at. rewrite Hheap, Hobj.
      rewrite lookup_app_l by (by rewrite length_insert).
      by rewrite list_lookup_insert_eq.
    + intros name Hname. unfold own_prop. rewrite Hheap, Hobj.
      rewrite lookup_app_l by (by rewrite length_insert).
      rewrite list_lookup_insert_eq by done. cbn [mbind option_bind fn_props].
      by rewrite lookup_insert_ne.
    + intros g Hg Hne. unfold leaves_unchanged. rewrite Hheap.
      rewrite lookup_app_l by (by rewrite length_insert).
      by rewrite list_lookup_insert_ne.
    + intros _. split; [by rewrite (methodize_cached_miss _ _ Hslot)|].
      split; [rewrite Hheap, length_app, length_insert; simpl; lia|].
      split; [|split].
      * rewrite (methodize_cached_miss _ _ Hslot). cbn [fst].
        by apply code_at_set_prop_alloc.
      * unfold own_prop. rewrite Hheap.
        rewrite lookup_app_l by (by rewrite length_insert).
        rewrite list_lookup_insert_eq by done. cbn [mbind option_bind fn_props].
        by rewrite lookup_insert_eq.
      * rewrite (methodize_cached_miss _ _ Hslot). cbn [fst snd].
        by apply get_prop_set_prop_alloc.
Qed.

Lemma operations_leave_original_witness :
  0 < length (heap one_callable) ∧
  OpBind [VObj 1] ≠ OpMethodize ∧
  leaves_unchanged one_callable (apply_op one_callable 0 (OpBind [VObj 1])) 0 ∧
  truthy (get_prop one_callable 0 "_methodized") = false ∧
  own_prop (apply_op one_callable 0 OpMethodize) 0 "_methodized"
  = Some (VFun 1).
Proof.
  split; [simpl; lia|]. split; [discriminate|].
  destruct (operations_leave_original one_callable 0 (OpBind [VObj 1]))
    as [H _]; [simpl; lia|].
  destruct H as [H _]; [discriminate|].
  split; [apply H; simpl; lia|]. split; [reflexivity|].
  destruct (operations_leave_original one_callable 0 OpMethodize)
    as [_ Hm]; [simpl; lia|].
  destruct (Hm eq_refl) as (_ & _ & _ & _ & Hmiss).
  destruct (Hmiss eq_refl) as (_ & _ & _ & Hslot & _).
  exact Hslot.
Defined.

(** C3, as stated, fails: [methodize] stores the callable it makes in
    the [_methodized] property of the original. *)
Lemma methodize_writes_slot :
  own_prop one_callable 0 "_methodized" = None ∧
  own_prop (apply_op one_callable 0 OpMethodize) 0 "_methodized" = Some (VFun 1) ∧
  ¬ leaves_unchanged one_callable (apply_op one_callable 0 OpMethodize) 0.
Proof.
  split; [reflexivity|]. split; [by vm_compute|].
  intros H.
  assert (Hp : own_prop (apply_op one_callable 0 OpMethodize) 0 "_methodized"
               = own_prop one_callable 0 "_methodized").
  { unfold own_prop. unfold leaves_unchanged in H. by rewrite H. }
  vm_compute in Hp. discriminate Hp.
Qed.

(** ** [wrap] *)

Lemma bind_this (st : state) (f : loc) (t : value) :
  bind st f [this_of t] = alloc st (BindNoArgs f (this_of t)).
Proof.
  apply (bind_new st f (this_of t) []). left. apply this_of_defined.
Qed.

Lemma invoke_Wrapped st b f (w : loc) c xs fuel :
  code_at st b = Some (Wrapped f (VFun w)) →
  invoke (S fuel) st (VFun b) c xs
  = invoke fuel (alloc (log_call st b c xs) (BindNoArgs f (this_of c))).1
      (VFun w) (this_of c) (VFun (length (heap st)) :: xs).
Proof.
  intros H. apply code_at_Some in H as (obj & Hobj & Hcode).
  cbn [invoke]. rewrite Hobj, Hcode. rewrite bind_this.
  unfold alloc. cbn [fst heap log_call].
  destruct xs as [|x xs]; cbn [has_length length Nat.eqb negb].
  - reflexivity.
  - by rewrite update_app.
Qed.

Lemma confined_refl S h st o : heap st = h → confined S h st (o, st).
Proof.
  intros Hh. split; [done|]. exists []. by rewrite app_nil_r.
Qed.

Lemma confined_trans S h st st' r o :
  confined S h st (o, st') → confined S h st' r → confined S h st r.
Proof.
  intros [_ (evs1 & Hc1 & Hs1)] [Hh (evs2 & Hc2 & Hs2)].
  split; [done|]. exists (evs1 ++ evs2). cbn [snd] in Hc1.
  rewrite Hc2, Hc1, app_assoc. split; [done|]. by apply Forall_app.
Qed.

Lemma confined_log S h st l t a r :
  S l → confined S h (log_call st l t a) r → confined S h st r.
Proof.
  intros Hl [Hh (evs & Hc & Hs)]. split; [done|].
  exists (Called l t a :: evs). cbn [log_call calls] in Hc.
  rewrite Hc, <- app_assoc. split; [done|]. by constructor.
Qed.

Lemma run_prog_confined S h call p :
  (∀ st g t a, heap st = h → (∀ l, g = VFun l → S l) →
     confined S h st (call st g t a)) →
  stays_within S p →
  ∀ st, heap st = h → confined S h st (run_prog call st p).
Proof.
  intros Hcall Hp. induction Hp as [v|v|g t a k Hg Hk IH]; intros st Hh;
    cbn [run_prog]; try by apply confined_refl.
  pose proof (Hcall st g t a Hh Hg) as Hc.
  destruct (call st g t a) as [[v|e|] st'] eqn:Hr; try exact Hc.
  eapply confined_trans; [exact Hc|]. apply IH. by destruct Hc.
Qed.

Lemma invoke_confined S h :
  closed S h →
  ∀ fuel st g t a, heap st = h → (∀ l, g = VFun l → S l) →
    confined S h st (invoke fuel st g t a).
Proof.
  intros Hclosed. induction fuel as [|fuel IH]; intros st g t a Hh Hg;
    cbn [invoke]; [by apply confined_refl|].
  destruct g as [| | | | |l]; try by apply confined_refl.
  destruct (Hclosed l (Hg l eq_refl)) as (strict & source & body & Hcode & Hbody).
  rewrite Hh. destruct (h !! l) as [obj|]; [|done].
  cbn in Hcode. injection Hcode as Hcode. rewrite Hcode.
  apply (confined_log S h st l t a); [by apply Hg|].
  apply run_prog_confined; [exact IH|apply Hbody|done].
Qed.

Lemma closed_app S (h h' : list fnobj) : closed S h → closed S (h ++ h').
Proof.
  intros Hclosed l Hl.
  destruct (Hclosed l Hl) as (strict & source & body & Hcode & Hbody).
  exists strict, source, body. split; [|done].
  destruct (h !! l) as [obj|] eqn:Hobj; [|done].
  by rewrite (lookup_app_l_Some _ _ _ _ Hobj).
Qed.

Lemma new_calls_confined S h st st1 l t a r (P : event → Prop) :
  calls st1 = calls st ++ [Called l t a] →
  confined S h st1 r →
  P (Called l t a) → (∀ e, S (event_callee e) → P e) →
  Forall P (new_calls st r).
Proof.
  intros Hst1 [_ (evs & Hc & Hs)] Hl HS. unfold new_calls. rewrite Hc, Hst1.
  rewrite <- app_assoc, drop_app_length.
  constructor; [done|]. eapply Forall_impl; [exact Hs|]. done.
Qed.

(** C5.  [wrap(w)] on [f] returns a new callable.  Called with receiver
    [c] and arguments [xs], it creates a new callable [bound] and calls
    [w] on its own context ([this], which is the caller's [c] whenever
    [c] is an object) with [bound] followed by [xs], hence with [bound]
    alone when [xs] is empty.  [bound] is [f] bound to that same
    context: however it is called, it calls [f] on it with the arguments
    of the call.  The wrapped callable itself enters nothing but [w]: if
    [w] belongs to a set of user-written callables that call nothing
    outside the set (so that [w] does not call its first argument) and
    [f] is not in it, [f] is never entered, however long the call
    runs. *)
Theorem wrap_passes_bound_original (st : state) (f w : loc) :
  f < length (heap st) →
  (wrap st f (VFun w)).2 = VFun (length (heap st)) ∧
  ∀ st' c xs,
    code_at st' (length (heap st))
      = code_at (wrap st f (VFun w)).1 (length (heap st)) →
    let wrapped := length (heap st) in
    let bound := length (heap st') in
    let st1 := (alloc (log_call st' wrapped c xs) (BindNoArgs f (this_of c))).1 in
    (∀ fuel, invoke (S fuel) st' (VFun wrapped) c xs
             = invoke fuel st1 (VFun w) (this_of c) (VFun bound :: xs)) ∧
    (xs = [] → VFun bound :: xs = [VFun bound]) ∧
    (∀ st2 t ys, code_at st2 bound = code_at st1 bound →
       calls_through st2 (VFun bound) t ys f (this_of c) ys) ∧
    (is_object c → this_of c = c) ∧
    (∀ S, closed S (heap st') → S w → ¬ S f →
       ∀ fuel, Forall (λ e, event_callee e ≠ f)
                 (new_calls st' (invoke fuel st' (VFun wrapped) c xs))).
Proof.
  intros Hf. split; [reflexivity|].
  intros st' c xs Hc wrapped bound st1. subst wrapped bound st1.
  unfold wrap in Hc. rewrite code_at_alloc in Hc.
  split; [|split; [|split; [|split]]].
  - intros fuel. by apply invoke_Wrapped.
  - by intros ->.
  - intros st2 t ys Hb.
    rewrite (code_at_alloc (log_call st' (length (heap st)) c xs)) in Hb.
    by apply invoke_BindNoArgs.
  - apply this_of_object.
  - intros S Hclosed Hw HSf [|fuel].
    + cbn [invoke]. unfold new_calls. cbn [snd]. by rewrite drop_all.
    + rewrite (invoke_Wrapped _ _ _ _ _ _ _ Hc).
      eapply (new_calls_confined S _ st'
                (alloc (log_call st' (length (heap st)) c xs)
                   (BindNoArgs f (this_of c))).1 (length (heap st)) c xs);
        [reflexivity|..].
      * apply (invoke_confined S _
                 (closed_app S _ [FnObj (BindNoArgs f (this_of c)) ∅] Hclosed));
          [reflexivity|by intros l [= <-]].
      * cbn [event_callee]. lia.
      * intros e He Heq. apply HSf. by rewrite <- Heq.
Qed.

Lemma closed_answers_alone : closed (eq 1) (heap three_callables).
Proof.
  intros l <-. exists false, "function (proceed) { return 42; }", (λ _ _, Ret (VNum 42)).
  split; [reflexivity|]. intros _ _. constructor.
Qed.

Lemma wrap_passes_bound_original_witness :
  0 < length (heap three_callables) ∧
  closed (eq 1) (heap (wrap three_callables 0 (VFun 1)).1) ∧
  Forall (λ e, event_callee e ≠ 0)
    (new_calls (wrap three_callables 0 (VFun 1)).1
       (invoke 4 (wrap three_callables 0 (VFun 1)).1 (VFun 3) (VObj 7) [VNum 5])).
Proof.
  split; [simpl; lia|].
  assert (Hclosed : closed (eq 1) (heap (wrap three_callables 0 (VFun 1)).1)).
  { apply (closed_app (eq 1) (heap three_callables)), closed_answers_alone. }
  split; [exact Hclosed|].
  destruct (wrap_passes_bound_original three_callables 0 1) as [_ H];
    [simpl; lia|].
  destruct (H (wrap three_callables 0 (VFun 1)).1 (VObj 7) [VNum 5] eq_refl)
    as (_ & _ & _ & _ & Hnever).
  apply (Hnever (eq 1) Hclosed eq_refl); discriminate.
Defined.

(** [wrap] with a wrapper that answers alone, called with [5]: the
    wrapper is entered with the bound original and [5], the original is
    not entered. *)
Example wrap_answers_alone :
  let r := wrap three_callables 0 (VFun 1) in
  invoke 4 r.1 r.2 (VObj 7) [VNum 5]
  = (Returned (VNum 42),
     State (heap r.1 ++ [FnObj (BindNoArgs 0 (VObj 7)) ∅])
       [Called 3 (VObj 7) [VNum 5]; Called 1 (VObj 7) [VFun 4; VNum 5]]
       VUndef [] 0).
Proof. reflexivity. Qed.

(** With a wrapper that calls what it is given, the original runs on
    the caller's context. *)
Example wrap_proceeds :
  let r := wrap three_callables 0 (VFun 2) in
  (invoke 5 r.1 r.2 (VObj 7) [VNum 5]).1 = Returned (VObj 7) ∧
  calls (invoke 5 r.1 r.2 (VObj 7) [VNum 5]).2
  = [Called 3 (VObj 7) [VNum 5]; Called 2 (VObj 7) [VFun 4; VNum 5];
     Called 4 VUndef [VNum 5]; Called 0 (VObj 7) [VNum 5]].
Proof. by vm_compute. Qed.

(** ** [argumentNames] *)

Lemma is_char_true (d c : ascii) : is_char d c = true ↔ c = d.
Proof. unfold is_char. apply bool_decide_eq_true. Qed.



Lemma skip_while_app (p : ascii → bool) (l r : text) :
  Forall (λ c, p c = true) l → skip_while p (l ++ r) = skip_while p r.
Proof.
  induction 1 as [|c l Hc _ IH]; [done|]. cbn [app skip_while]. by rewrite Hc.
Qed.

Lemma skip_while_stop (p : ascii → bool) (c : ascii) (r : text) :
  p c = false → skip_while p (c :: r) = c :: r.
Proof. cbn [skip_while]. by intros ->. Qed.

Lemma take_while_app (p : ascii → bool) (l : text) (c : ascii) (r : text) :
  Forall (λ c, p c = true) l → p c = false → take_while p (l ++ c :: r) = l.
Proof.
  intros Hl Hc. induction Hl as [|d l Hd _ IH]; cbn [app take_while].
  - by rewrite Hc.
  - by rewrite Hd, IH.
Qed.

Lemma skip_literal_app (lit r : text) : skip_literal lit (lit ++ r) = Some r.
Proof.
  induction lit as [|l lit IH]; [by destruct r|].
  cbn [app skip_literal]. by rewrite decide_True.
Qed.

Lemma Forall_negb (d : ascii) (s : text) :
  Forall (λ c, is_char d c = false) s →
  Forall (λ c, negb (is_char d c) = true) s.
Proof. intros H. eapply Forall_impl; [exact H|]. by intros c ->. Qed.

(** The group of the match is the parameter list. *)
Lemma match_declaration_declaration (lead fname params body : text) :
  head_ok lead fname →
  Forall (λ c, is_char ")" c = false) params →
  match_declaration (declaration lead fname params body) = Some params.
Proof.
  intros [Hlead Hfname] Hparams. unfold match_declaration, declaration.
  rewrite (skip_while_app _ lead) by done.
  set (kw := String.list_ascii_of_string "function").
  assert (Hkw : ∀ r, skip_while (λ c, is_space c || is_char "(" c) (kw ++ r) = kw ++ r)
    by (intros r; apply skip_while_stop; reflexivity).
  rewrite Hkw, skip_literal_app.
  rewrite (skip_while_app _ fname) by (by apply Forall_negb).
  rewrite skip_while_stop by reflexivity.
  rewrite (take_while_app _ params) by (by apply Forall_negb || reflexivity).
  rewrite (skip_while_app _ params) by (by apply Forall_negb).
  by rewrite skip_while_stop by reflexivity.
Qed.

(** *** Comments and whitespace *)
















(** *** Splitting *)




(** *** No closing parenthesis inside a well-formed parameter list *)






(** *** The names of a declaration *)







Lemma pad_item_ok_written (p : pad_item) : pad_item_ok p → pad_item_written p.
Proof. destruct p; cbn [pad_item_ok pad_item_written]; tauto. Qed.

(** The declarations of the amended statement are among those the
    statement as written speaks of. *)
Lemma declares_declares_written (source : string) (ps : list param) :
  declares source ps → declares_written source ps.
Proof.
  intros (lead & fname & body & Hhead & Hps & Htext).
  exists lead, fname, body. split; [done|]. split; [|done].
  eapply Forall_impl; [exact Hps|]. intros p (Hb & Hne & Hn & Ha).
  repeat split; try done;
    (eapply Forall_impl; [eassumption|apply pad_item_ok_written]).
Qed.


Example argumentNames_no_parameters :
  argumentNames declared_callables 1 = Some [].
Proof. reflexivity. Qed.

(** The module's own function literals: the listener declares [event],
    the others nothing. *)
Example argumentNames_listener :
  let r := bindAsEventListener one_callable 0 [VObj 1] in
  argumentNames r.1 1 = Some ["event"%string].
Proof. reflexivity. Qed.

Example argumentNames_bound :
  let r := bind one_callable 0 [VObj 1] in
  argumentNames r.1 1 = Some [].
Proof. reflexivity. Qed.

(** A text that is not a function declaration makes the match fail. *)
Example argumentNames_no_match :
  argument_names (String.list_ascii_of_string "class A { m(a) {} }") = None.
Proof. reflexivity. Qed.

(** ** Calls never touch existing function objects

    This is about the closures of the module and about user-written
    callables as the model has them (they call, return and throw); a
    callable that itself applies [methodize] is not among them. *)

Lemma run_prog_heap_prefix call :
  (∀ st g t a, heap st `prefix_of` heap (call st g t a).2) →
  ∀ p st, heap st `prefix_of` heap (run_prog call st p).2.
Proof.
  intros Hcall. induction p as [v|v|g t a k IH]; intros st; cbn [run_prog];
    try reflexivity.
  pose proof (Hcall st g t a) as Hc.
  destruct (call st g t a) as [[v|e|] st']; try exact Hc.
  etrans; [exact Hc|]. apply IH.
Qed.

Lemma invoke_heap_prefix (fuel : nat) :
  ∀ st g t a, heap st `prefix_of` heap (invoke fuel st g t a).2.
Proof.
  induction fuel as [|fuel IH]; intros st g t a; cbn [invoke]; [reflexivity|].
  destruct g as [| | | | |l]; try reflexivity.
  destruct (heap st !! l) as [obj|]; [|reflexivity].
  destruct (fn_code obj) as [strict source body|m ctx ps|m ctx|m ctx ps|m ctx
                            |m ps|m ps|m|m w|m].
  - apply (run_prog_heap_prefix _ IH _ (log_call st l t a)).
  - apply (IH (log_call st l t a)).
  - destruct (has_length a); apply (IH (log_call st l t a)).
  - apply (IH (log_call st l t a)).
  - apply (IH (log_call st l t a)).
  - apply (IH (log_call st l t a)).
  - apply (IH (log_call st l t a)).
  - apply (IH (log_call st l t a)).
  - rewrite bind_this. unfold alloc. cbn [fst heap log_call].
    assert (Hnew : ∀ r : result,
      heap st ++ [FnObj (BindNoArgs m (this_of t)) ∅] `prefix_of` heap r.2 →
      heap st `prefix_of` heap r.2).
    { intros r Hr. etrans; [|exact Hr]. by apply prefix_app_r. }
    destruct w; try reflexivity;
      destruct (has_length a); apply Hnew;
      match goal with |- _ `prefix_of` heap (invoke _ ?s _ _ _).2 => apply (IH s) end.
  - destruct (has_length a); apply (IH (log_call st l t a)).
Qed.

(** A function object that exists before a call is the same after it. *)
Lemma invoke_leaves_unchanged (fuel : nat) (st : state) (g t : value)
    (a : list value) (f : loc) :
  f < length (heap st) →
  leaves_unchanged st (invoke fuel st g t a).2 f.
Proof.
  intros Hf. destruct (invoke_heap_prefix fuel st g t a) as [new Hnew].
  unfold leaves_unchanged. rewrite Hnew. by apply lookup_app_l.
Qed.

(** ** The [_methodized] slot stays in order *)

Lemma methodized_slot_ok_preserved (st st' : state) (g : loc) :
  (∀ l, l < length (heap st) → code_at st' l = code_at st l) →
  get_prop st' g "_methodized" = get_prop st g "_methodized" →
  methodized_slot_ok st g → methodized_slot_ok st' g.
Proof.
  intros Hcode Hprop [Hfalse|(m & Hm & Hc)].
  - left. by rewrite Hprop.
  - right. exists m. rewrite Hprop. split; [done|].
    rewrite Hcode; [done|].
    unfold code_at in Hc. destruct (heap st !! m) as [obj|] eqn:Hobj; [|done].
    by eapply lookup_lt_Some.
Qed.

Lemma methodized_slot_ok_prefix (st st' : state) (g : loc) :
  g < length (heap st) →
  heap st `prefix_of` heap st' →
  methodized_slot_ok st g → methodized_slot_ok st' g.
Proof.
  intros Hg [new Hnew]. apply methodized_slot_ok_preserved.
  - intros l Hl. unfold code_at. by rewrite Hnew, lookup_app_l.
  - unfold get_prop. by rewrite Hnew, lookup_app_l.
Qed.

Lemma methodized_slot_ok_invoke (fuel : nat) (st : state) (h t : value)
    (a : list value) (g : loc) :
  g < length (heap st) →
  methodized_slot_ok st g → methodized_slot_ok (invoke fuel st h t a).2 g.
Proof.
  intros Hg. apply methodized_slot_ok_prefix; [done|]. apply invoke_heap_prefix.
Qed.

Lemma methodized_slot_ok_apply_op (st : state) (f g : loc) (o : operation) :
  f < length (heap st) → g < length (heap st) →
  methodized_slot_ok st g → methodized_slot_ok (apply_op st f o) g.
Proof.
  intros Hf Hg Hok.
  assert (Ho : o = OpMethodize ∨ o ≠ OpMethodize)
    by (destruct o; (by left) || (by right)).
  destruct Ho as [->|Ho].
  - cbn [apply_op]. destruct (decide (g = f)) as [->|Hne].
    { by apply methodized_slot_ok_methodize. }
    destruct (truthy (get_prop st f "_methodized")) eqn:Hslot.
    { by rewrite (methodize_cached_hit _ _ Hslot). }
    destruct (lookup_lt_is_Some_2 _ _ Hf) as [obj Hobj].
    pose proof (heap_methodize st f obj Hobj Hslot) as Hheap.
    revert Hok. apply methodized_slot_ok_preserved.
    + intros l Hl. unfold code_at. rewrite Hheap.
      rewrite lookup_app_l by (by rewrite length_insert).
      destruct (decide (l = f)) as [->|Hlf].
      * by rewrite list_lookup_insert_eq, Hobj.
      * by rewrite list_lookup_insert_ne.
    + unfold get_prop. rewrite Hheap.
      rewrite lookup_app_l by (by rewrite length_insert).
      by rewrite list_lookup_insert_ne.
  - destruct (heap_apply_op st f o Ho) as (new & Hnew & _).
    revert Hok. apply methodized_slot_ok_prefix; [done|]. by exists new.
Qed.

(** ** More fuel changes nothing *)

Lemma run_prog_mono call call' :
  (∀ st g t a o st', call st g t a = (o, st') → o ≠ OutOfFuel →
     call' st g t a = (o, st')) →
  ∀ p st o st', run_prog call st p = (o, st') → o ≠ OutOfFuel →
    run_prog call' st p = (o, st').
Proof.
  intros Hcall. induction p as [v|v|g t a k IH]; intros st o st' Hrun Ho;
    cbn [run_prog] in *; try done.
  destruct (call st g t a) as [[v|e|] st1] eqn:Hc.
  - rewrite (Hcall _ _ _ _ _ _ Hc) by done. by apply IH.
  - rewrite (Hcall _ _ _ _ _ _ Hc) by done. done.
  - injection Hrun as <- <-. done.
Qed.

Lemma invoke_mono (fuel : nat) :
  ∀ st g t a o st', invoke fuel st g t a = (o, st') → o ≠ OutOfFuel →
    invoke (S fuel) st g t a = (o, st').
Proof.
  induction fuel as [|fuel IH]; intros st g t a o st' Hrun Ho.
  { cbn [invoke] in Hrun. injection Hrun as <- <-. done. }
  remember (S fuel) as n eqn:Hn. cbn [invoke]. subst n. cbn [invoke] in Hrun.
  destruct g as [| | | | |l]; try done.
  destruct (heap st !! l) as [obj|]; [|done].
  destruct (fn_code obj) as [strict source body|m ctx ps|m ctx|m ctx ps|m ctx
                            |m ps|m ps|m|m w|m].
  - by apply (run_prog_mono _ _ IH _ _ _ _ Hrun).
  - by apply IH.
  - destruct (has_length a); by apply IH.
  - by apply IH.
  - by apply IH.
  - by apply IH.
  - by apply IH.
  - by apply IH.
  - destruct w; try done;
      destruct (bind (log_call st l t a) m [this_of t]) as [st1 bound];
      destruct (has_length a); by apply IH.
  - destruct (has_length a); by apply IH.
Qed.

(** A call that finishes with some fuel finishes the same way with any
    larger amount. *)
Lemma invoke_more_fuel (fuel extra : nat) st g t a o st' :
  invoke fuel st g t a = (o, st') → o ≠ OutOfFuel →
  invoke (fuel + extra) st g t a = (o, st').
Proof.
  intros Hrun Ho. induction extra as [|extra IH].
  - by rewrite Nat.add_0_r.
  - rewrite Nat.add_succ_r. by apply invoke_mono.
Qed.

(** * Further properties of the module *)

(** ** [update] and [merge] *)

(** X1.  [update] writes the elements of [args] behind those of [array],
    from the last one down, and what comes back is [array] followed by
    [args]: every old element stays where it was, every element of
    [args] lands at its own index plus the old length, and no gap is
    left.  [merge] gives the same sequence. *)
Theorem update_appends_in_order (array args : list value) :
  update array args = array ++ args ∧
  merge array args = array ++ args ∧
  length (update array args) = length array + length args ∧
  (∀ i, i < length array → update array args !! i = array !! i) ∧
  (∀ j, update array args !! (length array + j) = args !! j).
Proof.
  rewrite merge_app, update_app. split; [done|]. split; [done|].
  split; [by rewrite length_app|]. split.
  - intros i Hi. by apply lookup_app_l.
  - intros j. by rewrite lookup_app_r, Nat.add_comm, Nat.add_sub by lia.
Qed.

(** ** The match of [argumentNames] *)

Lemma take_skip_while (p : ascii → bool) (s : text) :
  s = take_while p s ++ skip_while p s ∧
  Forall (λ c, p c = true) (take_while p s).
Proof.
  induction s as [|c s [IH1 IH2]]; [by split|].
  cbn [take_while skip_while]. destruct (p c) eqn:Hc; [|by split].
  split; [cbn [app]; by rewrite <- IH1|by constructor].
Qed.

Lemma skip_while_head (p : ascii → bool) (s : text) (c : ascii) (r : text) :
  skip_while p s = c :: r → p c = false.
Proof.
  induction s as [|d s IH]; [done|]. cbn [skip_while].
  destruct (p d) eqn:Hd; [exact IH|]. by intros [= <- _].
Qed.

Lemma skip_literal_Some (lit s r : text) :
  skip_literal lit s = Some r → s = lit ++ r.
Proof.
  revert s. induction lit as [|l lit IH]; intros s; [by intros [= ->]|].
  destruct s as [|c s]; [done|]. cbn [skip_literal].
  destruct (decide (c = l)) as [->|]; [|done].
  intros H. cbn [app]. f_equal. by apply IH.
Qed.

Lemma Forall_negb_inv (d : ascii) (s : text) :
  Forall (λ c, negb (is_char d c) = true) s →
  Forall (λ c, is_char d c = false) s.
Proof.
  intros H. eapply Forall_impl; [exact H|]. intros c. by rewrite negb_true_iff.
Qed.

(** X2.  The match of line 29 succeeds on exactly the texts of the shape
    [lead function fname ( group ) rest], with nothing but whitespace and
    opening parentheses in [lead], no opening parenthesis in [fname] and
    no closing parenthesis in [group]; the group is then what stands
    between the first opening parenthesis after the keyword and the
    first closing parenthesis after that, whatever follows.  On every
    other text the match fails. *)
Theorem match_declaration_shape (s group : text) :
  match_declaration s = Some group ↔
  ∃ lead fname rest,
    head_ok lead fname ∧ Forall (λ c, is_char ")" c = false) group ∧
    s = declaration lead fname group rest.
Proof.
  split.
  - unfold match_declaration.
    destruct (take_skip_while (λ c, is_space c || is_char "(" c) s) as [Hs Hlead].
    destruct (skip_literal _ _) as [s2|] eqn:Hkw; [|done].
    apply skip_literal_Some in Hkw.
    destruct (take_skip_while (λ c, negb (is_char "(" c)) s2) as [Hs2 Hfname].
    destruct (skip_while (λ c, negb (is_char "(" c)) s2) as [|c s3] eqn:Hopen; [done|].
    apply skip_while_head in Hopen. apply negb_false_iff, is_char_true in Hopen.
    destruct (take_skip_while (λ c, negb (is_char ")" c)) s3) as [Hs3 Hgroup].
    destruct (skip_while (λ c, negb (is_char ")" c)) s3) as [|d rest] eqn:Hclose;
      [done|].
    apply skip_while_head in Hclose. apply negb_false_iff, is_char_true in Hclose.
    intros [= <-].
    exists (take_while (λ c, is_space c || is_char "(" c) s),
           (take_while (λ c, negb (is_char "(" c)) s2), rest.
    split; [split; [done|by apply Forall_negb_inv]|].
    split; [by apply Forall_negb_inv|].
    unfold declaration. rewrite Hs at 1. f_equal. rewrite Hkw. f_equal.
    rewrite Hs2 at 1. f_equal. subst c d. f_equal. exact Hs3.
  - intros (lead & fname & rest & Hhead & Hgroup & ->).
    by apply match_declaration_declaration.
Qed.

Lemma match_declaration_shape_witness :
  match_declaration (String.list_ascii_of_string "function f(a, b) {}")
  = Some (String.list_ascii_of_string "a, b").
Proof.
  apply (match_declaration_shape
           (String.list_ascii_of_string "function f(a, b) {}")
           (String.list_ascii_of_string "a, b")).
  exists [], (String.list_ascii_of_string " f"), (String.list_ascii_of_string " {}").
  split; [split; repeat constructor|]. split; [repeat constructor|reflexivity].
Defined.

(** ** What [argumentNames] returns *)

Lemma split_commas_pieces (P : ascii → Prop) (s : text) :
  Forall P s →
  Forall (Forall (λ c, P c ∧ is_char "," c = false)) (split_commas s).
Proof.
  induction 1 as [|c s Hc _ IH]; [by repeat constructor|].
  cbn [split_commas]. destruct (is_char "," c) eqn:Hcomma.
  - by constructor.
  - destruct (split_commas s) as [|x xs]; [by repeat constructor|].
    apply Forall_cons in IH as [Hx Hxs]. by repeat constructor.
Qed.

Lemma split_commas_nonempty (s : text) : split_commas s ≠ [].
Proof.
  destruct s as [|c s]; [done|]. cbn [split_commas].
  destruct (is_char "," c); [done|]. by destruct (split_commas s).
Qed.

Lemma join_split_commas (s : text) : join_commas (split_commas s) = s.
Proof.
  induction s as [|c s IH]; [reflexivity|]. cbn [split_commas].
  pose proof (split_commas_nonempty s) as Hne.
  destruct (is_char "," c) eqn:Hcomma.
  - apply is_char_true in Hcomma as ->.
    destruct (split_commas s) as [|x xs]; [done|].
    change (join_commas ([] :: x :: xs)) with ([] ++ ","%char :: join_commas (x :: xs)).
    by rewrite IH.
  - destruct (split_commas s) as [|x xs]; [done|].
    destruct xs as [|y ys].
    + cbn [join_commas] in *. by rewrite IH.
    + change (join_commas ((c :: x) :: y :: ys))
        with (c :: (x ++ ","%char :: join_commas (y :: ys))).
      f_equal. exact IH.
Qed.

Lemma strip_spaces_no_space (s : text) :
  Forall (λ c, is_space c = false) (strip_spaces s).
Proof.
  apply Forall_forall. intros c Hc. unfold strip_spaces in Hc.
  by apply list_elem_of_filter in Hc as [Hc _].
Qed.

(** The names for a group, as line 32 returns them. *)
Lemma argument_names_Some (s : text) (names : list text) :
  argument_names s = Some names →
  ∃ group,
    match_declaration s = Some group ∧
    ((names = [] ∧ split_commas (strip_spaces (strip_comments group)) = [[]]) ∨
     names = split_commas (strip_spaces (strip_comments group))).
Proof.
  unfold argument_names. destruct (match_declaration s) as [group|]; [|done].
  intros [= <-]. exists group. split; [done|].
  destruct (split_commas (strip_spaces (strip_comments group))) as [|x xs];
    [by right|].
  destruct xs as [|y ys]; [|by right]. cbn [length Nat.eqb nth andb].
  destruct (bool_decide_reflect (x = [])) as [->|Hx]; [by left|by right].
Qed.

(** X3.  Whatever the declaration text, a name returned by
    [argumentNames] holds no whitespace character and no comma. *)
Theorem argument_names_are_clean (s : text) (names : list text) :
  argument_names s = Some names →
  Forall (Forall (λ c, is_space c = false ∧ is_char "," c = false)) names.
Proof.
  intros H. apply argument_names_Some in H as (group & _ & [[-> _]| ->]);
    [constructor|].
  apply split_commas_pieces, strip_spaces_no_space.
Qed.

Lemma argument_names_are_clean_witness :
  argument_names (String.list_ascii_of_string "function (a , b) {}")
  = Some [String.list_ascii_of_string "a"; String.list_ascii_of_string "b"] ∧
  Forall (Forall (λ c, is_space c = false ∧ is_char "," c = false))
    [String.list_ascii_of_string "a"; String.list_ascii_of_string "b"].
Proof.
  split; [reflexivity|].
  apply (argument_names_are_clean
           (String.list_ascii_of_string "function (a , b) {}")).
  reflexivity.
Defined.

(** X4.  The names returned, joined by commas again, are the matched
    parameter list with its comments and whitespace removed: nothing
    else is dropped, added or reordered.  In particular a trailing or
    doubled comma shows up as an empty name; only the list that is
    empty as a whole comes back as no names at all. *)
Theorem argument_names_join (s : text) (names : list text) :
  argument_names s = Some names →
  ∃ group,
    match_declaration s = Some group ∧
    join_commas names = strip_spaces (strip_comments group) ∧
    (names = [] ↔ strip_spaces (strip_comments group) = []).
Proof.
  intros H. destruct (argument_names_Some _ _ H) as (group & Hm & Hnames).
  exists group. split; [done|].
  pose proof (join_split_commas (strip_spaces (strip_comments group))) as Hjoin.
  destruct Hnames as [[-> Hsplit]| ->].
  - rewrite Hsplit in Hjoin. cbn [join_commas] in Hjoin.
    rewrite <- Hjoin. by split.
  - split; [done|]. split.
    + intros Hnil. by apply split_commas_nonempty in Hnil.
    + intros Hnil. unfold argument_names in H.
      rewrite Hm, Hnil in H. by rewrite Hnil.
Qed.

Lemma argument_names_join_witness :
  argument_names (String.list_ascii_of_string "function (a, b,) {}")
  = Some [String.list_ascii_of_string "a"; String.list_ascii_of_string "b"; []] ∧
  ∃ group,
    match_declaration (String.list_ascii_of_string "function (a, b,) {}")
    = Some group ∧
    join_commas [String.list_ascii_of_string "a"; String.list_ascii_of_string "b"; []]
    = strip_spaces (strip_comments group).
Proof.
  split; [reflexivity|].
  destruct (argument_names_join
              (String.list_ascii_of_string "function (a, b,) {}")
              [String.list_ascii_of_string "a"; String.list_ascii_of_string "b"; []]
              eq_refl) as (group & Hm & Hjoin & _).
  exists group. by split.
Defined.

(** ** The comment filter of line 30 *)

Lemma has_close_tail (c : ascii) (r : text) :
  has_close (c :: r) = false → has_close r = false.
Proof.
  cbn [has_close]. destruct r as [|d r]; [done|].
  intros H. by apply orb_false_iff in H as [_ H].
Qed.

Lemma has_eol_tail (c : ascii) (r : text) :
  has_eol (c :: r) = false → has_eol r = false.
Proof.
  unfold has_eol. cbn [existsb]. intros H. by apply orb_false_iff in H as [_ H].
Qed.

Lemma strip_comments_from_sublist (m : scan) (s : text) :
  strip_comments_from m s `sublist_of` s.
Proof.
  revert m. induction s as [|c r IH]; intros m; [by destruct m|].
  destruct m; cbn [strip_comments_from];
    try (apply sublist_cons, IH).
  - destruct (is_char "/" c); [|apply sublist_skip, IH].
    destruct r as [|d r']; [reflexivity|].
    destruct (is_char "/" d && has_eol r'); [apply sublist_cons, IH|].
    destruct (is_char "*" d && has_close r'); [apply sublist_cons, IH|].
    apply sublist_skip, IH.
  - destruct (is_eol c); apply sublist_cons, IH.
  - destruct r as [|d r']; [apply sublist_nil_l|].
    destruct (is_char "*" c && is_char "/" d); apply sublist_cons, IH.
Qed.

Lemma strip_comments_unterminated (s : text) :
  has_eol s = false → has_close s = false → strip_comments s = s.
Proof.
  unfold strip_comments. induction s as [|c r IH]; intros Heol Hclose; [done|].
  pose proof (has_eol_tail _ _ Heol) as Heol'.
  pose proof (has_close_tail _ _ Hclose) as Hclose'.
  cbn [strip_comments_from]. destruct (is_char "/" c).
  - destruct r as [|d r']; [done|].
    rewrite (has_eol_tail _ _ Heol'), (has_close_tail _ _ Hclose').
    rewrite !andb_false_r. f_equal. by apply IH.
  - f_equal. by apply IH.
Qed.

(** X5.  The comment filter only ever removes characters: what it
    returns is the text with some stretches left out, in the original
    order.  It removes nothing at all from a text that holds no end of
    line and no star followed by a slash: a line comment that runs up
    to the closing parenthesis, or a block comment that is never
    closed, stays in the names. *)
Theorem strip_comments_only_removes (s : text) :
  strip_comments s `sublist_of` s ∧
  length (strip_comments s) ≤ length s ∧
  (has_eol s = false → has_close s = false → strip_comments s = s).
Proof.
  split; [apply strip_comments_from_sublist|]. split.
  - apply sublist_length, strip_comments_from_sublist.
  - apply strip_comments_unterminated.
Qed.

Lemma strip_comments_only_removes_witness :
  has_eol (String.list_ascii_of_string "a, b // last") = false ∧
  has_close (String.list_ascii_of_string "a, b // last") = false ∧
  strip_comments (String.list_ascii_of_string "a, b // last")
  = String.list_ascii_of_string "a, b // last".
Proof.
  split; [reflexivity|]. split; [reflexivity|].
  destruct (strip_comments_only_removes
              (String.list_ascii_of_string "a, b // last")) as (_ & _ & H).
  apply H; reflexivity.
Defined.

(** [function (a, b // last)]: the comment is not closed by an end of
    line inside the parentheses, so it stays in the second name. *)
Example argumentNames_unclosed_line_comment :
  argument_names (String.list_ascii_of_string "function (a, b // last) {}")
  = Some [String.list_ascii_of_string "a"; String.list_ascii_of_string "b//last"].
Proof. reflexivity. Qed.

(** ** Transformations applied one after the other *)

Lemma code_at_alloc_alloc (st : state) (c c' : code) :
  code_at (alloc (alloc st c).1 c').1 (length (heap st)) = Some c ∧
  code_at (alloc (alloc st c).1 c').1 (S (length (heap st))) = Some c'.
Proof.
  unfold code_at, alloc. cbn [fst heap set_heap]. split.
  - rewrite lookup_app_l by (rewrite length_app; simpl; lia).
    by rewrite lookup_app_r, Nat.sub_diag by lia.
  - rewrite lookup_app_r by (rewrite length_app; simpl; lia).
    rewrite length_app. cbn [length].
    by replace (S (length (heap st)) - (length (heap st) + 1)) with 0 by lia.
Qed.

Lemma this_of_idemp (t : value) : this_of (this_of t) = this_of t.
Proof. by destruct t. Qed.

(** X6.  Binding an already bound callable again does not move it to the
    new context: the callable from [bind(c1, ps1...)] bound once more
    with [bind(c2, ps2...)] still calls the original on [c1], with
    [ps1], then [ps2], then the arguments of the call. *)
Theorem bind_twice_keeps_first_context (st : state) (f : loc)
    (c1 : value) (ps1 : list value) (c2 : value) (ps2 : list value) :
  c1 ≠ VUndef ∨ ps1 ≠ [] →
  c2 ≠ VUndef ∨ ps2 ≠ [] →
  let b1 := length (heap st) in
  let b2 := S (length (heap st)) in
  let r1 := bind st f (c1 :: ps1) in
  let r2 := bind r1.1 b1 (c2 :: ps2) in
  r1.2 = VFun b1 ∧ r2.2 = VFun b2 ∧
  ∀ t xs fuel,
    invoke (S (S fuel)) r2.1 (VFun b2) t xs
    = invoke fuel (log_call (log_call r2.1 b2 t xs) b1 c2 (ps2 ++ xs))
        (VFun f) c1 (ps1 ++ ps2 ++ xs).
Proof.
  intros H1 H2 b1 b2 r1 r2. subst b1 b2 r1 r2.
  rewrite (bind_new _ _ _ _ H1), (bind_new _ _ _ _ H2).
  split; [reflexivity|]. split; [unfold alloc; cbn; f_equal; rewrite length_app; simpl; lia|].
  intros t xs fuel.
  set (k1 := if has_length ps1 then BindArgs f c1 ps1 else BindNoArgs f c1).
  set (k2 := if has_length ps2 then BindArgs (length (heap st)) c2 ps2
             else BindNoArgs (length (heap st)) c2).
  destruct (code_at_alloc_alloc st k1 k2) as [Hk1 Hk2].
  destruct (invoke_bound _ _ _ _ _ t xs Hk2) as (b & [= <-] & Hcall2).
  rewrite Hcall2.
  assert (Hk1' : code_at (log_call (alloc (alloc st k1).1 k2).1
                            (S (length (heap st))) t xs) (length (heap st))
                 = Some k1) by exact Hk1.
  destruct (invoke_bound _ _ _ _ _ c2 (ps2 ++ xs) Hk1') as (b & [= <-] & Hcall1).
  apply Hcall1.
Qed.

Lemma bind_twice_keeps_first_context_witness :
  (VObj 1 ≠ VUndef ∨ [VNum 1] ≠ []) ∧ (VObj 2 ≠ VUndef ∨ [VNum 2] ≠ []) ∧
  invoke 3 (bind (bind one_callable 0 [VObj 1; VNum 1]).1 1 [VObj 2; VNum 2]).1
    (VFun 2) (VObj 7) [VNum 3]
  = invoke 1
      (log_call
         (log_call (bind (bind one_callable 0 [VObj 1; VNum 1]).1 1
                      [VObj 2; VNum 2]).1 2 (VObj 7) [VNum 3])
         1 (VObj 2) [VNum 2; VNum 3])
      (VFun 0) (VObj 1) [VNum 1; VNum 2; VNum 3].
Proof.
  split; [left; discriminate|]. split; [left; discriminate|].
  destruct (bind_twice_keeps_first_context one_callable 0 (VObj 1) [VNum 1]
              (VObj 2) [VNum 2]) as (_ & _ & H);
    [left; discriminate|left; discriminate|].
  apply (H (VObj 7) [VNum 3] 1).
Defined.

(** X7.  Currying a curried callable adds the new preset arguments
    behind the old ones and still leaves the context to the call: the
    original is called on the [this] of the outer call with [ps1], then
    [ps2], then the arguments of the call. *)
Theorem curry_twice_appends (st : state) (f : loc) (ps1 ps2 : list value) :
  ps1 ≠ [] → ps2 ≠ [] →
  let c1 := length (heap st) in
  let c2 := S (length (heap st)) in
  let r1 := curry st f ps1 in
  let r2 := curry r1.1 c1 ps2 in
  r1.2 = VFun c1 ∧ r2.2 = VFun c2 ∧
  ∀ t xs fuel,
    invoke (S (S fuel)) r2.1 (VFun c2) t xs
    = invoke fuel (log_call (log_call r2.1 c2 t xs) c1 (this_of t) (ps2 ++ xs))
        (VFun f) (this_of t) (ps1 ++ ps2 ++ xs).
Proof.
  intros H1 H2 c1 c2 r1 r2. subst c1 c2 r1 r2.
  rewrite (curry_new _ _ _ H1), (curry_new _ _ _ H2).
  split; [reflexivity|]. split; [unfold alloc; cbn; f_equal; rewrite length_app; simpl; lia|].
  intros t xs fuel.
  destruct (code_at_alloc_alloc st (Curried f ps1) (Curried (length (heap st)) ps2))
    as [Hk1 Hk2].
  destruct (invoke_Curried _ _ _ _ t xs Hk2) as (b & [= <-] & Hcall2).
  rewrite Hcall2.
  assert (Hk1' : code_at
            (log_call (alloc (alloc st (Curried f ps1)).1
                         (Curried (length (heap st)) ps2)).1
               (S (length (heap st))) t xs) (length (heap st))
          = Some (Curried f ps1)) by exact Hk1.
  destruct (invoke_Curried _ _ _ _ (this_of t) (ps2 ++ xs) Hk1')
    as (b & [= <-] & Hcall1).
  rewrite Hcall1. by rewrite this_of_idemp.
Qed.

Lemma curry_twice_appends_witness :
  [VNum 1] ≠ [] ∧ [VNum 2] ≠ [] ∧
  invoke 3 (curry (curry one_callable 0 [VNum 1]).1 1 [VNum 2]).1
    (VFun 2) (VObj 7) [VNum 3]
  = invoke 1
      (log_call
         (log_call (curry (curry one_callable 0 [VNum 1]).1 1 [VNum 2]).1
            2 (VObj 7) [VNum 3])
         1 (VObj 7) [VNum 2; VNum 3])
      (VFun 0) (VObj 7) [VNum 1; VNum 2; VNum 3].
Proof.
  split; [discriminate|]. split; [discriminate|].
  destruct (curry_twice_appends one_callable 0 [VNum 1] [VNum 2])
    as (_ & _ & H); [discriminate|discriminate|].
  apply (H (VObj 7) [VNum 3] 1).
Defined.

(** ** [wrap] with something that cannot be called *)

(** X8.  [wrap] does not look at its wrapper: given [undefined], [null]
    or a primitive value (a number, a string, a boolean), none of which
    has an [apply] or a [call], it still returns a new callable.  The
    failure comes with the call: every call of that callable throws a
    TypeError, and the original is not entered (the only call logged is
    the one of the wrapped callable itself). *)
Theorem wrap_non_callable_fails_at_call (st : state) (f : loc) (w : value) :
  ¬ is_object w →
  (wrap st f w).2 = VFun (length (heap st)) ∧
  ∀ c xs fuel,
    (invoke (S (S fuel)) (wrap st f w).1 (VFun (length (heap st))) c xs).1
    = Thrown TypeError ∧
    calls (invoke (S (S fuel)) (wrap st f w).1 (VFun (length (heap st))) c xs).2
    = calls st ++ [Called (length (heap st)) c xs].
Proof.
  intros Hw. split; [reflexivity|]. intros c xs fuel.
  pose proof (code_at_alloc st (Wrapped f w)) as Hc.
  apply code_at_Some in Hc as (obj & Hobj & Hcode).
  unfold wrap. remember (S fuel) as n eqn:Hn. cbn [invoke].
  rewrite Hobj, Hcode, bind_this. unfold alloc. cbn [fst heap log_call set_heap].
  subst n.
  destruct w as [| |p|o|p|l]; try (by destruct Hw); try (by split);
    destruct xs; by split.
Qed.

Lemma wrap_non_callable_fails_at_call_witness :
  ¬ is_object (VStr "not a function") ∧
  (invoke 2 (wrap one_callable 0 (VStr "not a function")).1 (VFun 1)
     (VObj 7) [VNum 5]).1
  = Thrown TypeError.
Proof.
  split; [intros []|].
  destruct (wrap_non_callable_fails_at_call one_callable 0 (VStr "not a function"))
    as [_ H]; [intros []|].
  apply (H (VObj 7) [VNum 5] 0).
Defined.

(** ** [bindAsEventListener] and values that count as false *)

Lemma js_or_falsy (e w : value) : truthy e = false → js_or e w = w.
Proof. unfold js_or. by intros ->. Qed.

(** X9.  The listener takes [window.event] not only when no event is
    passed: an event argument that counts as false ([null], [false],
    [0], the empty string) is replaced by [window.event] as well, and
    arguments after the first are dropped. *)
Theorem bindAsEventListener_replaces_falsy_event (st : state) (f : loc)
    (ctx : value) (ps : list value) :
  ∀ st' t e rest,
    code_at st' (length (heap st))
      = code_at (bindAsEventListener st f (ctx :: ps)).1 (length (heap st)) →
    truthy e = false →
    calls_through st' (VFun (length (heap st))) t (e :: rest) f ctx
      (window_event st' :: ps).
Proof.
  intros st' t e rest Hc He. rewrite bindAsEventListener_new, code_at_alloc in Hc.
  rewrite <- (js_or_falsy e (window_event st') He).
  by apply (invoke_listener st' _ f ctx ps t (e :: rest)).
Qed.

Lemma bindAsEventListener_replaces_falsy_event_witness :
  truthy (VNum 0) = false ∧
  calls_through (bindAsEventListener one_callable 0 [VObj 1; VNum 2]).1
    (VFun 1) VUndef [VNum 0; VNum 9] 0 (VObj 1) [VUndef; VNum 2].
Proof.
  split; [reflexivity|].
  apply (bindAsEventListener_replaces_falsy_event one_callable 0 (VObj 1) [VNum 2]
           (bindAsEventListener one_callable 0 [VObj 1; VNum 2]).1 VUndef
           (VNum 0) [VNum 9]); reflexivity.
Defined.

(** ** Every call makes a new callable *)

(** X10.  Apart from the cases where the original itself is returned
    ([bind] with nothing but an undefined context, [curry] without
    arguments) and from [methodize], each transformation returns a
    callable that did not exist before, so asking twice with the same
    arguments gives two different callables: a listener made by a second
    [bindAsEventListener] is not the one registered by the first. *)
Theorem transformations_return_new_callables (st : state) (f : loc) :
  (∀ a, let r := bindAsEventListener st f a in
        r.2 = VFun (length (heap st)) ∧
        (bindAsEventListener r.1 f a).2 ≠ r.2) ∧
  (∀ w, let r := wrap st f w in
        r.2 = VFun (length (heap st)) ∧ (wrap r.1 f w).2 ≠ r.2) ∧
  (∀ ctx ps, ctx ≠ VUndef ∨ ps ≠ [] →
        let r := bind st f (ctx :: ps) in
        r.2 = VFun (length (heap st)) ∧ (bind r.1 f (ctx :: ps)).2 ≠ r.2) ∧
  (∀ ps, ps ≠ [] →
        let r := curry st f ps in
        r.2 = VFun (length (heap st)) ∧ (curry r.1 f ps).2 ≠ r.2).
Proof.
  split; [|split; [|split]].
  - intros a r. subst r. unfold bindAsEventListener.
    destruct (has_length (slice a 1)); (split; [reflexivity|]);
      unfold alloc; cbn [snd fst heap set_heap]; rewrite length_app;
      intros [= H]; simpl in H; lia.
  - intros w r. subst r. unfold wrap. split; [reflexivity|].
    unfold alloc. cbn [snd fst heap set_heap]. rewrite length_app.
    intros [= H]. simpl in H. lia.
  - intros ctx ps H r. subst r. rewrite !(bind_new _ _ _ _ H).
    split; [reflexivity|]. unfold alloc. cbn [snd fst heap set_heap].
    rewrite length_app. intros [= H']. simpl in H'. lia.
  - intros ps H r. subst r. rewrite !(curry_new _ _ _ H).
    split; [reflexivity|]. unfold alloc. cbn [snd fst heap set_heap].
    rewrite length_app. intros [= H']. simpl in H'. lia.
Qed.

Lemma transformations_return_new_callables_witness :
  (VObj 1 ≠ VUndef ∨ @nil value ≠ []) ∧
  (bind (bind one_callable 0 [VObj 1]).1 0 [VObj 1]).2
  ≠ (bind one_callable 0 [VObj 1]).2.
Proof.
  split; [left; discriminate|].
  destruct (transformations_return_new_callables one_callable 0)
    as (_ & _ & H & _).
  apply (H (VObj 1) []). left; discriminate.
Defined.

(** ** The [methodize] cache *)

Lemma heap_methodize_length (st : state) (f : loc) :
  f < length (heap st) →
  length (heap st) ≤ length (heap (methodize st f).1).
Proof.
  intros Hf. destruct (truthy (get_prop st f "_methodized")) eqn:Hslot.
  - by rewrite (methodize_cached_hit _ _ Hslot).
  - destruct (lookup_lt_is_Some_2 _ _ Hf) as [obj Hobj].
    rewrite (heap_methodize st f obj Hobj Hslot), length_app, length_insert. lia.
Qed.

Lemma code_at_methodize_old (st : state) (f l : loc) :
  f < length (heap st) → l < length (heap st) →
  code_at (methodize st f).1 l = code_at st l.
Proof.
  intros Hf Hl. destruct (truthy (get_prop st f "_methodized")) eqn:Hslot.
  - by rewrite (methodize_cached_hit _ _ Hslot).
  - destruct (lookup_lt_is_Some_2 _ _ Hf) as [obj Hobj].
    unfold code_at. rewrite (heap_methodize st f obj Hobj Hslot).
    rewrite lookup_app_l by (by rewrite length_insert).
    destruct (decide (l = f)) as [->|Hne].
    + by rewrite list_lookup_insert_eq, Hobj.
    + by rewrite list_lookup_insert_ne.
Qed.

Lemma code_at_lt (st : state) (l : loc) (c : code) :
  code_at st l = Some c → l < length (heap st).
Proof.
  intros H. apply code_at_Some in H as (obj & Hobj & _). by eapply lookup_lt_Some.
Qed.

(** X11.  The cache is per callable: two different callables of the
    store, each with its slot in order, never get the same methodized
    callable. *)
Theorem methodize_not_shared (st : state) (f g : loc) :
  f < length (heap st) → g < length (heap st) → f ≠ g →
  methodized_slot_ok st f → methodized_slot_ok st g →
  (methodize (methodize st f).1 g).2 ≠ (methodize st f).2.
Proof.
  intros Hf Hg Hne Hokf Hokg.
  destruct (methodize_result st f Hf Hokf) as (m & Hm & _ & Hcode).
  pose proof (heap_methodize_length st f Hf) as Hlen.
  assert (Hg' : g < length (heap (methodize st f).1)) by lia.
  pose proof (methodized_slot_ok_apply_op st f g OpMethodize Hf Hg Hokg) as Hokg'.
  cbn [apply_op] in Hokg'.
  destruct (methodize_result _ g Hg' Hokg') as (m' & Hm' & _ & Hcode').
  rewrite Hm, Hm'. intros [= ->].
  rewrite (code_at_methodize_old _ g m Hg' (code_at_lt _ _ _ Hcode)) in Hcode'.
  congruence.
Qed.

Lemma methodize_not_shared_witness :
  0 < length (heap three_callables) ∧ 1 < length (heap three_callables) ∧
  (methodize (methodize three_callables 0).1 1).2 ≠ (methodize three_callables 0).2.
Proof.
  split; [simpl; lia|]. split; [simpl; lia|].
  apply (methodize_not_shared three_callables 0 1);
    [simpl; lia|simpl; lia|discriminate|left; reflexivity|left; reflexivity].
Defined.

Lemma methodize_slot_after (st : state) (f : loc) :
  f < length (heap st) →
  get_prop (methodize st f).1 f "_methodized" = (methodize st f).2 ∧
  truthy (methodize st f).2 = true.
Proof.
  intros Hf. destruct (truthy (get_prop st f "_methodized")) eqn:Hslot.
  - by rewrite (methodize_cached_hit _ _ Hslot).
  - rewrite (methodize_cached_miss _ _ Hslot). cbn [fst snd].
    by rewrite get_prop_set_prop_alloc.
Qed.

Lemma get_prop_apply_op (st : state) (f g : loc) (o : operation) :
  f < length (heap st) → g < length (heap st) →
  truthy (get_prop st f "_methodized") = true →
  get_prop (apply_op st g o) f "_methodized" = get_prop st f "_methodized".
Proof.
  intros Hf Hg Hslot.
  assert (Ho : o = OpMethodize ∨ o ≠ OpMethodize)
    by (destruct o; (by left) || (by right)).
  destruct Ho as [->|Ho].
  - cbn [apply_op]. destruct (truthy (get_prop st g "_methodized")) eqn:Hg_slot.
    { by rewrite (methodize_cached_hit _ _ Hg_slot). }
    assert (Hne : f ≠ g) by (intros ->; congruence).
    destruct (lookup_lt_is_Some_2 _ _ Hg) as [obj Hobj].
    unfold get_prop. rewrite (heap_methodize st g obj Hobj Hg_slot).
    rewrite lookup_app_l by (by rewrite length_insert).
    by rewrite list_lookup_insert_ne.
  - destruct (heap_apply_op st g o Ho) as (new & Hnew & _).
    unfold get_prop. by rewrite Hnew, lookup_app_l.
Qed.

(** X12.  Once [methodize] has been applied to a callable [f] of the
    store, any operation of the module applied afterwards, to [f] or to
    any other callable there, leaves the cache alone: the next
    [methodize] on [f] returns the same value again. *)
Theorem methodize_cache_survives (st : state) (f g : loc) (o : operation) :
  f < length (heap st) → g < length (heap st) →
  (methodize (apply_op (methodize st f).1 g o) f).2 = (methodize st f).2.
Proof.
  intros Hf Hg. destruct (methodize_slot_after st f Hf) as [Hslot Htrue].
  pose proof (heap_methodize_length st f Hf) as Hlen.
  assert (Hprop : get_prop (apply_op (methodize st f).1 g o) f "_methodized"
                  = (methodize st f).2).
  { rewrite get_prop_apply_op by (lia || by rewrite Hslot). exact Hslot. }
  rewrite methodize_cached_hit by (by rewrite Hprop). exact Hprop.
Qed.

Lemma methodize_cache_survives_witness :
  0 < length (heap three_callables) ∧ 1 < length (heap three_callables) ∧
  (methodize (apply_op (methodize three_callables 0).1 1 (OpBind [VObj 1])) 0).2
  = (methodize three_callables 0).2.
Proof.
  split; [simpl; lia|]. split; [simpl; lia|].
  apply (methodize_cache_survives three_callables 0 1 (OpBind [VObj 1]));
    simpl; lia.
Defined.

(** ** Calls and the host

    The user-written callables of the model call, return and throw and
    do nothing else; a callable that itself applies a method of the
    module or sets a timeout is not among them. *)



(** ** Several timeouts *)

Lemma filter_token_keeps (id : nat) (ts : list timer) :
  Forall (λ tm, timer_id tm ≠ id) ts →
  filter (λ tm, timer_has_token (token id) tm = false) ts = ts.
Proof.
  induction 1 as [|tm ts Hne _ IH]; [done|].
  rewrite filter_cons_True; [by rewrite IH|].
  rewrite timer_has_token_id. apply Nat.eqb_neq. lia.
Qed.

Lemma token_inj (a b : nat) : token a = token b → a = b.
Proof. unfold token, inject_Z. intros [= H]. lia. Qed.

(** X14.  Two [delay]s in a row get different tokens, and clearing the
    first leaves the second pending: its dispatch still calls the second
    callable, on itself, with its own arguments. *)
Theorem delay_tokens_independent (st : state) (f g : loc) (s1 : value)
    (xs1 : list value) (s2 : value) (xs2 : list value) :
  timers_fresh st →
  let r1 := delay st f (s1 :: xs1) in
  let r2 := delay r1.1 g (s2 :: xs2) in
  let thunk2 := S (length (heap st)) in
  let id2 := S (next_timer st) in
  let st' := clearTimeout r2.1 r1.2 in
  r1.2 = token (next_timer st) ∧ r2.2 = token id2 ∧ r1.2 ≠ r2.2 ∧
  timers st' = timers st ++ [Timer id2 (VFun thunk2) (Times1000 s2)] ∧
  ∀ fuel late,
    dispatch (S fuel) st' id2 late
    = invoke fuel (log_call (set_timers st' (timers st)) thunk2 VUndef late)
        (VFun g) (VFun g) xs2.
Proof.
  intros Hfresh r1 r2 thunk2 id2 st'. subst r1 r2 thunk2 id2 st'.
  rewrite !delay_unfold.
  set (k1 := delayed f xs1). set (k2 := delayed g xs2).
  assert (Hlen : length (heap (setTimeout (alloc st k1).1 (VFun (length (heap st)))
                                 (Times1000 s1)).1) = S (length (heap st))).
  { cbn [setTimeout fst heap alloc set_heap]. rewrite length_app. simpl. lia. }
  rewrite Hlen.
  assert (Hold : Forall (λ tm, timer_id tm ≠ next_timer st) (timers st)).
  { eapply Forall_impl; [exact Hfresh|]. intros tm Hlt. simpl in Hlt. lia. }
  assert (Holder : Forall (λ tm, timer_id tm < S (next_timer st)) (timers st)).
  { eapply Forall_impl; [exact Hfresh|]. intros tm Hlt. simpl in Hlt. lia. }
  assert (Htimers :
    filter (λ tm, timer_has_token (token (next_timer st)) tm = false)
      ((timers st ++ [Timer (next_timer st) (VFun (length (heap st))) (Times1000 s1)])
       ++ [Timer (S (next_timer st)) (VFun (S (length (heap st)))) (Times1000 s2)])
    = timers st
      ++ [Timer (S (next_timer st)) (VFun (S (length (heap st)))) (Times1000 s2)]).
  { rewrite !filter_app, (filter_token_keeps _ _ Hold).
    rewrite filter_cons_False, filter_nil
      by (rewrite timer_has_token_id; cbn [timer_id]; by rewrite Nat.eqb_refl).
    rewrite filter_cons_True, filter_nil
      by (rewrite timer_has_token_id; cbn [timer_id]; apply Nat.eqb_neq; lia).
    by rewrite app_nil_r. }
  split; [reflexivity|]. split; [reflexivity|].
  split; [intros H; apply token_inj in H; cbn in H; lia|].
  split.
  - unfold clearTimeout. cbn [setTimeout alloc fst snd timers set_heap set_timers
                              next_timer heap]. exact Htimers.
  - intros fuel late. unfold dispatch, clearTimeout.
    cbn [setTimeout alloc fst snd timers set_heap set_timers next_timer heap].
    rewrite Htimers.
    rewrite (find_new_timer _ _ _ Holder) by reflexivity.
    rewrite (filter_drops_new_timer _ _ _ Holder) by reflexivity.
    cbn [timer_fn].
    destruct (code_at_alloc_alloc st k1 k2) as [_ Hk2].
    match goal with
    | |- invoke _ ?s _ _ _ = _ =>
        assert (Hcode : code_at s (S (length (heap st))) = Some (delayed g xs2))
          by exact Hk2
    end.
    destruct (invoke_delayed _ _ g xs2 VUndef late Hcode) as (b & [= <-] & Hcall).
    apply Hcall.
Qed.

Lemma delay_tokens_independent_witness :
  timers_fresh three_callables ∧
  (delay three_callables 0 [VNum 1; VStr "a"]).2
  ≠ (delay (delay three_callables 0 [VNum 1; VStr "a"]).1 1 [VNum 2; VStr "b"]).2.
Proof.
  split; [apply Forall_nil_2|].
  destruct (delay_tokens_independent three_callables 0 1 (VNum 1) [VStr "a"]
              (VNum 2) [VStr "b"]) as (_ & _ & H & _); [apply Forall_nil_2|].
  exact H.
Defined.

(** Two timeouts, the first cleared: the dispatch of the second enters
    its thunk and then the second callable. *)
Example delay_twice_clear_first :
  let r1 := delay three_callables 0 [VNum 1; VStr "a"] in
  let r2 := delay r1.1 1 [VNum 2; VStr "b"] in
  let st' := clearTimeout r2.1 r1.2 in
  calls (dispatch 3 st' 0 []).2 = [] ∧
  calls (dispatch 3 st' 1 []).2
  = [Called 4 VUndef []; Called 1 (VFun 1) [VStr "b"]].
Proof. by vm_compute. Qed.

(** ** What [delay] and [defer] do at once *)

Lemma delay_any (st : state) (f : loc) (a : list value) :
  delay st f a
  = setTimeout (alloc st (delayed f (slice a 1))).1 (VFun (length (heap st)))
      (Times1000 (array_get a 0)).
Proof.
  unfold delay, delayed. by destruct (has_length (slice a 1)).
Qed.

(** X15.  Whatever arguments they get, none included, [delay] and
    [defer] call nothing themselves: the call log is as before.  They
    create the thunk, add exactly one timeout behind the pending ones
    (for [delay] with the first argument times 1000 as delay, undefined
    when there is none; for [defer] always with [0.01] times 1000),
    return its token and keep the timeout IDs in increasing order. *)
Theorem delay_defer_only_register (st : state) (f : loc) (a : list value) :
  (let r := delay st f a in
   calls r.1 = calls st ∧
   heap r.1 = heap st ++ [FnObj (delayed f (slice a 1)) ∅] ∧
   timers r.1 = timers st ++ [Timer (next_timer st) (VFun (length (heap st)))
                                (Times1000 (array_get a 0))] ∧
   r.2 = token (next_timer st) ∧
   (timers_fresh st → timers_fresh r.1)) ∧
  (let r := defer st f a in
   calls r.1 = calls st ∧
   heap r.1 = heap st ++ [FnObj (delayed f a) ∅] ∧
   timers r.1 = timers st ++ [Timer (next_timer st) (VFun (length (heap st)))
                                (Times1000 (VNum (1 # 100)))] ∧
   r.2 = token (next_timer st) ∧
   (timers_fresh st → timers_fresh r.1)).
Proof.
  assert (Hfresh : ∀ tm, timer_id tm = next_timer st →
    timers_fresh st →
    Forall (λ tm', timer_id tm' < S (next_timer st)) (timers st ++ [tm])).
  { intros tm Hid H. apply Forall_app. split.
    - eapply Forall_impl; [exact H|]. intros tm' Hlt. simpl in Hlt. lia.
    - apply Forall_singleton. lia. }
  split.
  - rewrite delay_any. cbn zeta. repeat (split; [reflexivity|]).
    intros H. by apply Hfresh.
  - assert (Hdefer : defer st f a = delay st f (VNum (1 # 100) :: a)).
    { unfold defer. destruct a as [|x a]; [reflexivity|].
      cbn [has_length length Nat.eqb negb]. by rewrite update_app. }
    rewrite Hdefer, delay_any. unfold slice. cbn [drop array_get nth].
    rewrite drop_0. cbn zeta. repeat (split; [reflexivity|]).
    intros H. by apply Hfresh.
Qed.

Lemma delay_defer_only_register_witness :
  timers_fresh one_callable ∧
  timers_fresh (defer one_callable 0 [VStr "a"]).1 ∧
  calls (delay one_callable 0 []).1 = [].
Proof.
  destruct (delay_defer_only_register one_callable 0 [VStr "a"])
    as [_ (_ & _ & _ & _ & Hfresh)].
  destruct (delay_defer_only_register one_callable 0 [])
    as [(Hcalls & _) _].
  split; [apply Forall_nil_2|]. split; [apply Hfresh, Forall_nil_2|exact Hcalls].
Defined.



(** ** [argumentNames] on the module's own callables *)

(** X17.  [argumentNames] reads the text of the callable it is applied
    to, so on a callable made by the module it reports the parameters
    of the wrapping function literal, not those the original declares:
    [event] for a listener, none for the callables made by [bind],
    [curry], [delay], [wrap] and [methodize]. *)
Theorem argumentNames_of_closures (st : state) (b : loc) (c : code) :
  code_at st b = Some c →
  (∀ strict source body, c ≠ Native strict source body) →
  argumentNames st b
  = Some (match c with
          | ListenerArgs _ _ _ | ListenerNoArgs _ _ => ["event"%string]
          | _ => []
          end).
Proof.
  intros H Hc. apply code_at_Some in H as (obj & Hobj & Hcode).
  unfold argumentNames. rewrite Hobj, Hcode.
  destruct c; try reflexivity. by destruct (Hc strict source body).
Qed.

Lemma argumentNames_of_closures_witness :
  code_at (bind declared_callables 0 [VObj 1]).1 2
  = Some (BindNoArgs 0 (VObj 1)) ∧
  argumentNames (bind declared_callables 0 [VObj 1]).1 0
  = Some ["a"; "b"; "c"]%string ∧
  argumentNames (bind declared_callables 0 [VObj 1]).1 2 = Some [].
Proof.
  split; [reflexivity|]. split; [reflexivity|].
  apply (argumentNames_of_closures (bind declared_callables 0 [VObj 1]).1 2
           (BindNoArgs 0 (VObj 1)) eq_refl).
  discriminate.
Defined.

(** ** [wrap] with a wrapper that only passes on *)

Lemma run_prog_call_ret call (st : state) (g t : value) (a : list value) :
  run_prog call st (Call g t a Ret) = call st g t a.
Proof.
  cbn [run_prog]. by destruct (call st g t a) as [[v|e|] st'].
Qed.

(** X18.  Wrapping with a wrapper that does nothing but call the
    original it is handed, with the arguments it got, and return what
    comes back, gives the original again, run on the context of the
    caller: the wrapped callable called with receiver [c] and [xs] ends
    as the call of [f] on [this] with [xs] does, and this whatever
    receiver [r] the wrapper uses for its call of the original. *)
Theorem wrap_pass_through (st : state) (f w : loc) (strict : bool)
    (source : string) (r : value) :
  code_at st w
    = Some (Native strict source
              (λ _ args, Call (array_get args 0) r (slice args 1) Ret)) →
  let wrapped := length (heap st) in
  let bound := S (length (heap st)) in
  let st0 := (wrap st f (VFun w)).1 in
  (wrap st f (VFun w)).2 = VFun wrapped ∧
  ∀ c xs fuel,
    invoke (S (S (S fuel))) st0 (VFun wrapped) c xs
    = invoke fuel
        (log_call
           (log_call
              (alloc (log_call st0 wrapped c xs) (BindNoArgs f (this_of c))).1
              w (this_of c) (VFun bound :: xs))
           bound r xs)
        (VFun f) (this_of c) xs.
Proof.
  intros Hw wrapped bound st0. subst wrapped bound st0.
  split; [reflexivity|]. intros c xs fuel.
  rewrite (invoke_Wrapped (wrap st f (VFun w)).1 (length (heap st)) f w c xs)
    by apply (code_at_alloc st (Wrapped f (VFun w))).
  assert (Hlen : length (heap (wrap st f (VFun w)).1) = S (length (heap st))).
  { unfold wrap, alloc. cbn [fst heap set_heap]. rewrite length_app. simpl. lia. }
  rewrite Hlen.
  set (st1 := (alloc (log_call (wrap st f (VFun w)).1 (length (heap st)) c xs)
                 (BindNoArgs f (this_of c))).1).
  assert (Hw1 : code_at st1 w
    = Some (Native strict source
              (λ _ args, Call (array_get args 0) r (slice args 1) Ret))).
  { pose proof (code_at_lt _ _ _ Hw) as Hlt. rewrite <- Hw.
    unfold code_at, st1, wrap, alloc. cbn [fst heap set_heap log_call].
    rewrite !lookup_app_l; [done|lia|rewrite length_app; simpl; lia]. }
  assert (Hb1 : code_at st1 (S (length (heap st)))
                = Some (BindNoArgs f (this_of c))).
  { unfold st1. rewrite <- Hlen.
    exact (code_at_alloc (log_call (wrap st f (VFun w)).1 (length (heap st)) c xs)
             (BindNoArgs f (this_of c))). }
  apply code_at_Some in Hw1 as (obj & Hobj & Hcode).
  remember (S fuel) as n eqn:Hn. cbn [invoke]. rewrite Hobj, Hcode.
  rewrite run_prog_call_ret. unfold slice. cbn [array_get nth drop].
  rewrite drop_0. subst n.
  destruct (invoke_BindNoArgs
              (log_call st1 w (this_of c) (VFun (S (length (heap st))) :: xs))
              (S (length (heap st))) f (this_of c) r xs Hb1)
    as (b & [= <-] & Hcall).
  apply Hcall.
Qed.

Lemma wrap_pass_through_witness :
  code_at three_callables 2 = Some proceeds ∧
  invoke 4 (wrap three_callables 0 (VFun 2)).1 (VFun 3) (VObj 7) [VNum 5]
  = invoke 1
      (log_call
         (log_call
            (alloc (log_call (wrap three_callables 0 (VFun 2)).1 3 (VObj 7) [VNum 5])
               (BindNoArgs 0 (VObj 7))).1
            2 (VObj 7) [VFun 4; VNum 5])
         4 VUndef [VNum 5])
      (VFun 0) (VObj 7) [VNum 5].
Proof.
  split; [reflexivity|].
  destruct (wrap_pass_through three_callables 0 2 false
              "function (proceed, x) { return proceed(x); }" VUndef eq_refl)
    as [_ H].
  apply (H (VObj 7) [VNum 5] 1).
Defined.
